(** * ArangoDB dispatcher thread and shell factory: a shallow embedding

    This development embeds two translation units of the repository:

    - [lib/Utilities/ShellImplFactory.cpp]  (module [ShellImplFactory]);
    - [arangod/Dispatcher/DispatcherThread.cpp]  (module [DispatcherThread]).

    The dispatcher thread is modelled from the point of view of ONE worker
    thread.  The shared [DispatcherQueue] and the wall clock form a [World].
    The thread's code is written in a small monad that threads the world,
    records every action of the thread in a chronological trace, and
    propagates C++ exceptions.  All the other threads (producers, the
    controller that sets [_stopping], the passing of time) are an explicit
    schedule of world transformers, one of which runs before every access of
    the thread to shared state; job code is a world transformer too.
    Memory is taken to be sequentially consistent, and asynchronous thread
    cancellation by the operating system is outside the model. *)

From Stdlib Require Import ZArith List String Bool Lia.
From Stdlib Require Import Floats.PrimFloat.
From Stdlib Require DecimalString DecimalN.
Import ListNotations.

Set Warnings "-inexact-float".

Local Open Scope string_scope.
Local Open Scope list_scope.
Local Open Scope Z_scope.

(* ===================================================================== *)
(** * lib/Utilities/ShellImplFactory.cpp                                  *)
(* ===================================================================== *)

Module ShellImplFactory.

(** [Completer *]: the address of the completion provider. *)
Definition CompleterPtr := Z.

(** The two classes deriving from [ShellImplementation]; both
    constructors take [(history, completer)]. *)
Inductive ShellImplementation : Type :=
| LinenoiseShell (history : string) (completer : CompleterPtr)
| ReadlineShell (history : string) (completer : CompleterPtr).

(** The preprocessor symbols the function body tests with
    [#ifdef _WIN32] and [#elif defined TRI_HAVE_LINENOISE]. *)
Record Macros : Type := {
  _WIN32 : bool;
  TRI_HAVE_LINENOISE : bool
}.

Definition buildShell (m : Macros) (history : string)
           (completer : CompleterPtr) : ShellImplementation :=
  if _WIN32 m then
    (* under windows the readline is not compilable *)
    LinenoiseShell history completer
  else if TRI_HAVE_LINENOISE m then
    LinenoiseShell history completer
  else
    ReadlineShell history completer.

Definition shell_history (sh : ShellImplementation) : string :=
  match sh with LinenoiseShell h _ => h | ReadlineShell h _ => h end.

Definition shell_completer (sh : ShellImplementation) : CompleterPtr :=
  match sh with LinenoiseShell _ c => c | ReadlineShell _ c => c end.

Definition is_linenoise (sh : ShellImplementation) : bool :=
  match sh with LinenoiseShell _ _ => true | ReadlineShell _ _ => false end.

End ShellImplFactory.

(* ===================================================================== *)
(** * arangod/Dispatcher/DispatcherThread.cpp                             *)
(* ===================================================================== *)

Module DispatcherThread.

(** ** Data *)

(** [Job *]; [nullptr] is address 0. *)
Definition JobPtr := Z.
Definition nullptr : JobPtr := 0.

(** Modelled from the spec: the error numbers [TRI_ERROR_OUT_OF_MEMORY]
    and [TRI_ERROR_INTERNAL] are declared in a header that is not part of
    the sources at hand; the spec calls them a distinguished
    "out of memory" kind and an "internal error" kind. *)
Inductive ErrorCode : Type :=
| TRI_ERROR_OUT_OF_MEMORY
| TRI_ERROR_INTERNAL
| TRI_ERROR_OTHER (n : Z).

(** [arangodb::basics::Exception(code, message, file, line)];
    [what()] is the message. *)
Record Exception : Type := {
  code : ErrorCode;
  message : string;
  file : string;
  line : Z
}.

(** What a C++ [throw] can carry, by the first [catch] clause of
    [handleJob] that matches its dynamic type. *)
Inductive Throwable : Type :=
| ArangoException (ex : Exception)   (* catch (Exception const&)      *)
| StdBadAlloc (what : string)        (* catch (std::bad_alloc const&) *)
| StdException (what : string)       (* catch (std::exception const&) *)
| Unrecognized (tag : Z).            (* only catch (...)              *)

Inductive Outcome : Type :=
| Returns
| Throws (t : Throwable).

(** The members of [DispatcherQueue] the thread touches.  The counters
    are atomics whose declared width is in [DispatcherQueue.h]; they are
    integers here. *)
Record DispatcherQueue : Type := {
  _stopping : bool;
  _readyJobs : list JobPtr;
  _numberJobs : Z;
  _nrRunning : Z;
  _nrWaiting : Z;
  _nrBlocked : Z
}.

(** Shared state: the queue and the wall clock read by
    [TRI_microtime()] (a [double], in seconds). *)
Record World : Type := {
  queue : DispatcherQueue;
  clock : float
}.

(** Code that runs on the world and returns or throws: a job's virtual
    methods. *)
Definition Action := World -> World * Outcome.

Record Job : Type := {
  getName : string;
  requestStatisticsAgentSetQueueEnd : Action;
  work : Action;
  handleError : Exception -> Action;
  cleanup : Action
}.

(** What the translation unit takes from elsewhere: the build
    configuration, the heap of jobs, and two members of
    [DispatcherQueue] defined in another file. *)
Record Env : Type := {
  TRI_HAVE_POSIX_THREADS : bool;
  __FILE__ : string;
  jobs : JobPtr -> Job;
  tooManyThreads : World -> bool;
  removeStartedThread : Z -> World -> World
}.

Inductive LogLevel : Type := DEBUG | TRACE | WARNING.

(** Everything the thread does, in the order it does it. *)
Inductive Event : Type :=
| EvLog (lvl : LogLevel) (msg : string)
| EvLoadStopping (b : bool)
| EvMicrotime (t : float)
| EvPop (r : option JobPtr)            (* [None]: [pop] returned false *)
| EvDecNumberJobs
| EvSetQueueEnd (job : JobPtr) (o : Outcome)
| EvWork (job : JobPtr) (o : Outcome)
| EvHandleError (job : JobPtr) (ex : Exception) (o : Outcome)
| EvCleanup (job : JobPtr) (o : Outcome)
| EvIncWaiting
| EvDecWaiting
| EvLock
| EvUnlock
| EvEmpty (b : bool)
| EvWait (usec : Z)
| EvTooManyThreads (b : bool)
| EvUsleep (usec : Z)
| EvRemoveStartedThread (thread : Z).

(** A trace entry: the event and the world in which it was performed
    (the world just before the event's own effect). *)
Definition Entry : Type := Event * World.
Definition Trace : Type := list Entry.

Definition events (tr : Trace) : list Event := map fst tr.

(** ** The thread monad *)

Record ThreadState : Type := {
  world : World;
  others : list (World -> World);     (* what the other threads will do *)
  currentDispatcherThread : Z         (* the thread_local slot *)
}.

Inductive Completion (A : Type) : Type :=
| Normal (a : A)
| Abrupt (t : Throwable)
| OutOfFuel.
Arguments Normal {A} a.
Arguments Abrupt {A} t.
Arguments OutOfFuel {A}.

Record Run (A : Type) : Type := {
  completion : Completion A;
  final : ThreadState;
  trace : Trace
}.
Arguments completion {A} r.
Arguments final {A} r.
Arguments trace {A} r.

Definition M (A : Type) : Type := ThreadState -> Run A.

Definition ret {A} (a : A) : M A :=
  fun s => {| completion := Normal a; final := s; trace := [] |}.

Definition bind {A B} (m : M A) (f : A -> M B) : M B :=
  fun s =>
    match m s with
    | {| completion := Normal a; final := s1; trace := tr1 |} =>
        match f a s1 with
        | {| completion := c; final := s2; trace := tr2 |} =>
            {| completion := c; final := s2; trace := tr1 ++ tr2 |}
        end
    | {| completion := Abrupt t; final := s1; trace := tr1 |} =>
        {| completion := Abrupt t; final := s1; trace := tr1 |}
    | {| completion := OutOfFuel; final := s1; trace := tr1 |} =>
        {| completion := OutOfFuel; final := s1; trace := tr1 |}
    end.

Notation "x <- m ;; k" := (bind m (fun x => k))
  (at level 61, m at next level, right associativity).
Notation "m ;; k" := (bind m (fun _ => k))
  (at level 61, right associativity).

Definition throw {A} (t : Throwable) : M A :=
  fun s => {| completion := Abrupt t; final := s; trace := [] |}.

Definition out_of_fuel {A} : M A :=
  fun s => {| completion := OutOfFuel; final := s; trace := [] |}.

(** [try { body } catch ... { handler }]: the handler receives the
    thrown value and dispatches on it. *)
Definition try_catch {A} (body : M A) (handler : Throwable -> M A) : M A :=
  fun s =>
    match body s with
    | {| completion := Abrupt t; final := s1; trace := tr1 |} =>
        match handler t s1 with
        | {| completion := c; final := s2; trace := tr2 |} =>
            {| completion := c; final := s2; trace := tr1 ++ tr2 |}
        end
    | r => r
    end.

Definition set_world (w : World) (s : ThreadState) : ThreadState :=
  {| world := w; others := others s;
     currentDispatcherThread := currentDispatcherThread s |}.

(** The next step of the other threads runs. *)
Definition interleave (s : ThreadState) : ThreadState :=
  match others s with
  | [] => s
  | f :: rest =>
      {| world := f (world s); others := rest;
         currentDispatcherThread := currentDispatcherThread s |}
  end.

(** One access to shared state: the others run, then the operation, which
    is recorded with its result. *)
Definition shared {A} (op : World -> World * A) (ev : A -> Event) : M A :=
  fun s =>
    let s1 := interleave s in
    let r := op (world s1) in
    {| completion := Normal (snd r);
       final := set_world (fst r) s1;
       trace := [(ev (snd r), world s1)] |}.

Definition of_outcome (o : Outcome) : Completion unit :=
  match o with
  | Returns => Normal tt
  | Throws t => Abrupt t
  end.

(** A call of a job method: it returns or throws. *)
Definition call (act : Action) (ev : Outcome -> Event) : M unit :=
  fun s =>
    let s1 := interleave s in
    let r := act (world s1) in
    {| completion := of_outcome (snd r);
       final := set_world (fst r) s1;
       trace := [(ev (snd r), world s1)] |}.

Definition LOG (lvl : LogLevel) (msg : string) : M unit :=
  fun s => {| completion := Normal tt; final := s;
              trace := [(EvLog lvl msg, world s)] |}.

(** ** Operations on the queue *)

Definition set_queue (q : DispatcherQueue) (w : World) : World :=
  {| queue := q; clock := clock w |}.

Definition set_readyJobs (l : list JobPtr) (q : DispatcherQueue) :=
  {| _stopping := _stopping q; _readyJobs := l;
     _numberJobs := _numberJobs q; _nrRunning := _nrRunning q;
     _nrWaiting := _nrWaiting q; _nrBlocked := _nrBlocked q |}.

Definition set_numberJobs (n : Z) (q : DispatcherQueue) :=
  {| _stopping := _stopping q; _readyJobs := _readyJobs q;
     _numberJobs := n; _nrRunning := _nrRunning q;
     _nrWaiting := _nrWaiting q; _nrBlocked := _nrBlocked q |}.

Definition set_nrWaiting (n : Z) (q : DispatcherQueue) :=
  {| _stopping := _stopping q; _readyJobs := _readyJobs q;
     _numberJobs := _numberJobs q; _nrRunning := _nrRunning q;
     _nrWaiting := n; _nrBlocked := _nrBlocked q |}.

Definition set_stopping (b : bool) (q : DispatcherQueue) :=
  {| _stopping := b; _readyJobs := _readyJobs q;
     _numberJobs := _numberJobs q; _nrRunning := _nrRunning q;
     _nrWaiting := _nrWaiting q; _nrBlocked := _nrBlocked q |}.

(** [_queue->_stopping.load(memory_order_relaxed)] *)
Definition load_stopping : M bool :=
  shared (fun w => (w, _stopping (queue w))) EvLoadStopping.

(** [TRI_microtime()] *)
Definition TRI_microtime : M float :=
  shared (fun w => (w, clock w)) EvMicrotime.

(** [_queue->_readyJobs.pop(job)]: [None] when the queue is empty,
    otherwise the oldest pointer, which is removed. *)
Definition pop : M (option JobPtr) :=
  shared (fun w =>
            match _readyJobs (queue w) with
            | [] => (w, None)
            | j :: rest => (set_queue (set_readyJobs rest (queue w)) w, Some j)
            end) EvPop.

(** [--(_queue->_numberJobs)] *)
Definition dec_numberJobs : M unit :=
  shared (fun w => (set_queue (set_numberJobs (_numberJobs (queue w) - 1)
                                              (queue w)) w, tt))
         (fun _ => EvDecNumberJobs).

(** [++_queue->_nrWaiting] *)
Definition inc_nrWaiting : M unit :=
  shared (fun w => (set_queue (set_nrWaiting (_nrWaiting (queue w) + 1)
                                             (queue w)) w, tt))
         (fun _ => EvIncWaiting).

(** [--_queue->_nrWaiting] *)
Definition dec_nrWaiting : M unit :=
  shared (fun w => (set_queue (set_nrWaiting (_nrWaiting (queue w) - 1)
                                             (queue w)) w, tt))
         (fun _ => EvDecWaiting).

(** [CONDITION_LOCKER(guard, _queue->_waitLock)] and the guard's
    destructor. *)
Definition lock_waitLock : M unit :=
  shared (fun w => (w, tt)) (fun _ => EvLock).
Definition unlock_waitLock : M unit :=
  shared (fun w => (w, tt)) (fun _ => EvUnlock).

(** [_queue->_readyJobs.empty()] *)
Definition readyJobs_empty : M bool :=
  shared (fun w => (w, match _readyJobs (queue w) with
                       | [] => true
                       | _ :: _ => false
                       end)) EvEmpty.

(** [_queue->_waitLock.wait(usec)]: the thread sleeps until it is
    signalled or the delay has passed; what happens meanwhile is the
    others' step. *)
Definition wait (usec : Z) : M unit :=
  shared (fun w => (w, tt)) (fun _ => EvWait usec).

Definition usleep (usec : Z) : M unit :=
  shared (fun w => (w, tt)) (fun _ => EvUsleep usec).

(** ** Arithmetic on [uintptr_t] *)

Definition uintptr_t (x : Z) : Z := x mod 2 ^ 64.

(** [(1 + ((n >> 3) % 9)) * 100 * 1000] *)
Definition wait_delay (n : Z) : Z :=
  uintptr_t (uintptr_t (uintptr_t (1 + Z.shiftr n 3 mod 9) * 100) * 1000).

(** [1 + ((n >> 3) % 19)] *)
Definition sleep_delay (n : Z) : Z :=
  uintptr_t (1 + Z.shiftr n 3 mod 19).

(** ** [DispatcherThread::handleJob] *)

Section Thread.

Variable E : Env.

(** The three methods called on [job] inside [try] blocks. *)
Definition job_setQueueEnd (job : JobPtr) : M unit :=
  call (requestStatisticsAgentSetQueueEnd (jobs E job)) (EvSetQueueEnd job).
Definition job_work (job : JobPtr) : M unit :=
  call (work (jobs E job)) (EvWork job).
Definition job_handleError (job : JobPtr) (ex : Exception) : M unit :=
  call (handleError (jobs E job) ex) (EvHandleError job ex).
Definition job_cleanup (job : JobPtr) : M unit :=
  call (cleanup (jobs E job)) (EvCleanup job).

(** Lines 155-207: the first [try] statement. *)
Definition handleJob_work (job : JobPtr) : M unit :=
  try_catch
    (job_setQueueEnd job ;;
     job_work job)
    (fun t =>
       match t with
       | ArangoException ex =>
           try_catch
             (job_handleError job ex)
             (fun t' =>
                match t' with
                | ArangoException ex' =>
                    LOG WARNING ("caught error while handling error: "
                                   ++ message ex')%string
                | StdBadAlloc w | StdException w =>
                    LOG WARNING ("caught error while handling error: "
                                   ++ w)%string
                | Unrecognized _ =>
                    LOG WARNING "caught unknown error while handling error!"
                end)
       | StdBadAlloc w =>
           try_catch
             (let ex2 :=
                {| code := TRI_ERROR_OUT_OF_MEMORY;
                   message := ("job failed with bad_alloc: " ++ w)%string;
                   file := __FILE__ E; line := 172 |} in
              job_handleError job ex2 ;;
              LOG WARNING ("caught exception in work(): "
                             ++ message ex2)%string)
             (fun _ =>
                LOG WARNING "caught unknown error while handling error!")
       | StdException w =>
           try_catch
             (let ex2 :=
                {| code := TRI_ERROR_INTERNAL;
                   message := ("job failed with error: " ++ w)%string;
                   file := __FILE__ E; line := 183 |} in
              job_handleError job ex2 ;;
              LOG WARNING ("caught exception in work(): "
                             ++ message ex2)%string)
             (fun _ =>
                LOG WARNING "caught unknown error while handling error!")
       | Unrecognized _ =>
           (if TRI_HAVE_POSIX_THREADS E then
              stopping <- load_stopping ;;
              if stopping then
                LOG WARNING "caught cancelation exception during work" ;;
                throw t
              else ret tt
            else ret tt) ;;
           try_catch
             (let ex := {| code := TRI_ERROR_INTERNAL;
                           message := "job failed with unknown error";
                           file := __FILE__ E; line := 200 |} in
              job_handleError job ex ;;
              LOG WARNING "caught unknown exception in work()")
             (fun _ =>
                LOG WARNING "caught unknown error while handling error!")
       end).

(** Lines 209-221: "finish jobs". *)
Definition handleJob_finish (job : JobPtr) : M unit :=
  try_catch
    (job_cleanup job)
    (fun t =>
       (if TRI_HAVE_POSIX_THREADS E then
          stopping <- load_stopping ;;
          if stopping then
            LOG WARNING "caught cancelation exception during cleanup" ;;
            throw t
          else ret tt
        else ret tt) ;;
       LOG WARNING "caught error while cleaning up!").

Definition handleJob (job : JobPtr) : M unit :=
  LOG DEBUG ("starting to run job: " ++ getName (jobs E job))%string ;;
  (* start all the dirty work *)
  handleJob_work job ;;
  (* finish jobs *)
  handleJob_finish job.

(** ** [DispatcherThread::run] *)

Variable this : Z.

Definition grace : float := 0.2%float.

(** The inner [while (_queue->_readyJobs.pop(job))] loop.  It returns
    the value of [worked] when [pop] fails.  Every successful [pop]
    takes one unit of fuel. *)
Fixpoint drain (fuel : nat) (now worked : float) : M float :=
  match fuel with
  | O => out_of_fuel
  | S fuel' =>
      r <- pop ;;
      match r with
      | None => ret worked
      | Some job =>
          if job =? nullptr then drain fuel' now worked
          else
            dec_numberJobs ;;
            (* worked = now; *)
            handleJob job ;;
            drain fuel' now now
      end
  end.

(** How an iteration of the outer loop ends. *)
Inductive Control : Type := Continue | Break.

(** Lines 90-115: what the thread does when the queue is drained. *)
Definition idle (now worked : float) : M Control :=
  if (worked + grace <? now)%float then
    inc_nrWaiting ;;
    lock_waitLock ;;
    e <- readyJobs_empty ;;
    if negb e then
      dec_nrWaiting ;;
      unlock_waitLock ;;
      ret Continue
    else
      (* wait at most 100ms *)
      let n := uintptr_t this in
      wait (wait_delay n) ;;
      dec_nrWaiting ;;
      many <- shared (fun w => (w, tooManyThreads E w)) EvTooManyThreads ;;
      if many then
        unlock_waitLock ;;
        ret Break
      else
        unlock_waitLock ;;
        ret Continue
  else if (worked <? now)%float then
    let n := uintptr_t this in
    usleep (sleep_delay n) ;;
    ret Continue
  else ret Continue.

(** The outer [while (!_queue->_stopping.load(...))] loop; every
    iteration takes one unit of fuel. *)
Fixpoint run_loop (fuel : nat) (worked : float) : M unit :=
  match fuel with
  | O => out_of_fuel
  | S fuel' =>
      stopping <- load_stopping ;;
      if stopping then ret tt
      else
        now <- TRI_microtime ;;
        (* drain the job queue *)
        worked' <- drain fuel' now worked ;;
        c <- idle now worked' ;;
        match c with
        | Break => ret tt
        | Continue => run_loop fuel' worked'
        end
  end.

Definition set_currentDispatcherThread (p : Z) : M unit :=
  fun s => {| completion := Normal tt;
              final := {| world := world s; others := others s;
                          currentDispatcherThread := p |};
              trace := [] |}.

Definition run (fuel : nat) : M unit :=
  set_currentDispatcherThread this ;;
  run_loop fuel 0%float ;;
  LOG TRACE "dispatcher thread has finished" ;;
  (* this will delete the thread *)
  shared (fun w => (removeStartedThread E this w, tt))
         (fun _ => EvRemoveStartedThread this).

End Thread.

(** ** Observations on traces *)




(** A [pop] that returned [true] with a job to run. *)
Definition is_job_pop (e : Event) : bool :=
  match e with
  | EvPop (Some j) => negb (j =? nullptr)
  | _ => false
  end.

(** What this thread has added to [_nrWaiting]: its increments minus its
    decrements. *)
Fixpoint waiting_balance (evs : list Event) : Z :=
  match evs with
  | [] => 0
  | EvIncWaiting :: rest => 1 + waiting_balance rest
  | EvDecWaiting :: rest => waiting_balance rest - 1
  | _ :: rest => waiting_balance rest
  end.

(** The events between [++_nrWaiting] and [--_nrWaiting]. *)
Definition is_park_event (e : Event) : bool :=
  match e with
  | EvLock | EvEmpty _ | EvWait _ | EvDecWaiting => true
  | _ => false
  end.


Definition with_clock (tr : Trace) : list (Event * float) :=
  map (fun en => (fst en, clock (snd en))) tr.

(** ** The protocol of the scheduling loop

    The places of [run] between two events of the thread, and which
    event leads from one to the next.  [Draining] covers the inner
    [while] loop including the body of [handleJob]. *)

Inductive Phase : Type :=
| AtLoopTop       (* about to evaluate the outer loop condition       *)
| Checked         (* [_stopping] read as false                        *)
| Draining        (* in the inner loop                                *)
| Popped          (* a job was popped                                 *)
| Rethrowing      (* a handler of handleJob saw [_stopping]           *)
| Unwound         (* an exception has left [run]                      *)
| Idle            (* [pop] returned false                             *)
| Announced       (* after [++_nrWaiting]                             *)
| Locked          (* the guard holds [_waitLock]                      *)
| Aborting        (* the queue was not empty on the second look       *)
| Aborted         (* [--_nrWaiting] done, guard still held            *)
| Parking         (* the queue was empty on the second look           *)
| Woken           (* [wait] has returned                              *)
| Released        (* [--_nrWaiting] done after [wait]                 *)
| Shrinking       (* [tooManyThreads()] said true                     *)
| Staying         (* [tooManyThreads()] said false                    *)
| Leaving         (* the outer loop is left                           *)
| Deregistering   (* the final log line is written                    *)
| Terminated.     (* [removeStartedThread(this)] was called           *)

Definition finished_msg : string := "dispatcher thread has finished".

Definition step (this : Z) (p : Phase) (e : Event) : option Phase :=
  match p, e with
  | AtLoopTop, EvLoadStopping b => Some (if b then Leaving else Checked)
  | Idle, EvLoadStopping b => Some (if b then Leaving else Checked)
  | Checked, EvMicrotime _ => Some Draining
  | Draining, EvPop None => Some Idle
  | Draining, EvPop (Some j) =>
      Some (if j =? nullptr then Draining else Popped)
  | Popped, EvDecNumberJobs => Some Draining
  | Draining, EvLog _ _ => Some Draining
  | Draining, EvSetQueueEnd _ _ => Some Draining
  | Draining, EvWork _ _ => Some Draining
  | Draining, EvHandleError _ _ _ => Some Draining
  | Draining, EvCleanup _ _ => Some Draining
  | Draining, EvLoadStopping b => Some (if b then Rethrowing else Draining)
  | Rethrowing, EvLog WARNING _ => Some Unwound
  | Idle, EvIncWaiting => Some Announced
  | Idle, EvUsleep u =>
      if u =? sleep_delay (uintptr_t this) then Some AtLoopTop else None
  | Announced, EvLock => Some Locked
  | Locked, EvEmpty b => Some (if b then Parking else Aborting)
  | Aborting, EvDecWaiting => Some Aborted
  | Aborted, EvUnlock => Some AtLoopTop
  | Parking, EvWait u =>
      if u =? wait_delay (uintptr_t this) then Some Woken else None
  | Woken, EvDecWaiting => Some Released
  | Released, EvTooManyThreads b => Some (if b then Shrinking else Staying)
  | Shrinking, EvUnlock => Some Leaving
  | Staying, EvUnlock => Some AtLoopTop
  | Leaving, EvLog TRACE m =>
      if String.eqb m finished_msg then Some Deregistering else None
  | Deregistering, EvRemoveStartedThread t =>
      if t =? this then Some Terminated else None
  | _, _ => None
  end.

Fixpoint follow (this : Z) (p : Phase) (evs : list Event) : option Phase :=
  match evs with
  | [] => Some p
  | e :: rest =>
      match step this p e with
      | Some q => follow this q rest
      | None => None
      end
  end.

(** Whether the thread is counted in [_nrWaiting] at a place. *)
Definition counted (p : Phase) : Z :=
  match p with
  | Announced | Locked | Aborting | Parking | Woken => 1
  | _ => 0
  end.

(** [leads this p r Q]: from place [p] the events of the run [r] are
    steps of the protocol, and they end at a place [q] that [Q] relates to
    the way [r] completes. *)
Definition leads {A} (this : Z) (p : Phase) (r : Run A)
           (Q : Completion A -> Phase -> Prop) : Prop :=
  exists q, follow this p (events (trace r)) = Some q /\ Q (completion r) q.

(** Where the blocks of [run] end. *)
Definition after_job (c : Completion unit) (q : Phase) : Prop :=
  match c with
  | Normal _ => q = Draining
  | Abrupt _ => q = Unwound
  | OutOfFuel => False
  end.

Definition after_drain (c : Completion float) (q : Phase) : Prop :=
  match c with
  | Normal _ => q = Idle
  | Abrupt _ => q = Unwound
  | OutOfFuel => q = Draining
  end.

Definition after_idle (c : Completion Control) (q : Phase) : Prop :=
  match c with
  | Normal Continue => q = AtLoopTop \/ q = Idle
  | Normal Break => q = Leaving
  | _ => False
  end.

(** The places where the fuel of the model can end. *)
Definition in_a_loop (q : Phase) : Prop :=
  q = AtLoopTop \/ q = Idle \/ q = Draining.

Definition after_loop (c : Completion unit) (q : Phase) : Prop :=
  match c with
  | Normal _ => q = Leaving
  | Abrupt _ => q = Unwound
  | OutOfFuel => in_a_loop q
  end.

Definition after_run (c : Completion unit) (q : Phase) : Prop :=
  match c with
  | Normal _ => q = Terminated
  | Abrupt _ => q = Unwound
  | OutOfFuel => in_a_loop q
  end.

(** ** Concrete jobs, worlds and schedules *)

Definition quiet : Action := fun w => (w, Returns).

Definition throwing (t : Throwable) : Action := fun w => (w, Throws t).

(** Time passes. *)
Definition tick (d : float) : World -> World :=
  fun w => {| queue := queue w; clock := (clock w + d)%float |}.

(** The controller asks the queue to stop. *)
Definition begin_shutdown : World -> World :=
  fun w => set_queue (set_stopping true (queue w)) w.

(** A producer adds a job. *)
Definition add_job (j : JobPtr) : World -> World :=
  fun w => set_queue (set_readyJobs (_readyJobs (queue w) ++ [j])
                        (set_numberJobs (_numberJobs (queue w) + 1)
                                        (queue w))) w.

Definition sample_job (name : string) (w : Action) (h : Action)
           (c : Action) : Job :=
  {| getName := name;
     requestStatisticsAgentSetQueueEnd := quiet;
     work := w;
     handleError := fun _ => h;
     cleanup := c |}.

(** A domain error. *)
Definition conflict : Exception :=
  {| code := TRI_ERROR_OTHER 1200; message := "conflict";
     file := "Job.cpp"; line := 10 |}.

(** The heap of the examples: six jobs at addresses 1 to 6. *)
Definition sample_jobs (p : JobPtr) : Job :=
  if p =? 1 then sample_job "slow" (fun w => (tick 5 w, Returns)) quiet quiet
  else if p =? 2 then
    sample_job "cancelled" (throwing (Unrecognized 7)) quiet quiet
  else if p =? 3 then
    sample_job "no-memory" (throwing (StdBadAlloc "std::bad_alloc"))
               (throwing (StdException "reporting failed")) quiet
  else if p =? 4 then
    sample_job "bad-document"
               (throwing (ArangoException conflict))
               (throwing (Unrecognized 9))
               (throwing (StdException "cleanup failed"))
  else if p =? 5 then
    sample_job "runtime" (throwing (StdException "boom")) quiet quiet
  else sample_job "plain" quiet quiet quiet.

Definition sample_env (posix : bool) (many : bool) : Env :=
  {| TRI_HAVE_POSIX_THREADS := posix;
     __FILE__ := "arangod/Dispatcher/DispatcherThread.cpp";
     jobs := sample_jobs;
     tooManyThreads := fun _ => many;
     removeStartedThread := fun _ w => w |}.

Definition sample_queue (stopping : bool) (ready : list JobPtr) :=
  {| _stopping := stopping; _readyJobs := ready;
     _numberJobs := Z.of_nat (List.length ready);
     _nrRunning := 1; _nrWaiting := 0; _nrBlocked := 0 |}.

Definition sample_state (stopping : bool) (ready : list JobPtr)
           (time : float) (sched : list (World -> World)) : ThreadState :=
  {| world := {| queue := sample_queue stopping ready; clock := time |};
     others := sched;
     currentDispatcherThread := 0 |}.

(** [n] steps in which the other threads do nothing. *)
Definition calm (n : nat) : list (World -> World) :=
  repeat (fun w : World => w) n.

(** ** The constructor *)

(** [std::to_string] on a [size_t]: the decimal digits. *)
Definition to_string (n : N) : string :=
  DecimalString.NilEmpty.string_of_uint (N.to_uint n).

(** The name the constructor [DispatcherThread::DispatcherThread] hands to
    [Thread], computed from [queue->_id].  [Dispatcher::STANDARD_QUEUE]
    and [Dispatcher::AQL_QUEUE] are declared in a header that is not among
    the sources: they are parameters. *)
Definition thread_name (STANDARD_QUEUE AQL_QUEUE : N) (id : N) : string :=
  ("Dispatcher"
     ++ (if (id =? STANDARD_QUEUE)%N then "Std"
         else if (id =? AQL_QUEUE)%N then "Aql"
              else "_" ++ to_string id))%string.

(** ** More observations on traces *)

(** [job != nullptr] *)
Definition nonnull (j : JobPtr) : bool := negb (j =? nullptr).

(** The jobs popped, in order: every pointer, and the ones that are not
    null. *)
Definition all_pops (evs : list Event) : list JobPtr :=
  flat_map (fun e => match e with EvPop (Some j) => [j] | _ => [] end) evs.

Definition popped (evs : list Event) : list JobPtr :=
  flat_map (fun e => match e with
                     | EvPop (Some j) => if j =? nullptr then [] else [j]
                     | _ => []
                     end) evs.

(** The jobs on which [handleJob] made its first call, and the jobs whose
    [cleanup] was called, in order. *)
Definition started (evs : list Event) : list JobPtr :=
  flat_map (fun e => match e with EvSetQueueEnd j _ => [j] | _ => [] end)
           evs.

Definition cleaned (evs : list Event) : list JobPtr :=
  flat_map (fun e => match e with EvCleanup j _ => [j] | _ => [] end) evs.

Definition is_warning (e : Event) : bool :=
  match e with EvLog WARNING _ => true | _ => false end.

Definition warnings (evs : list Event) : nat :=
  List.length (filter is_warning evs).

Definition handleError_calls (evs : list Event) : nat :=
  List.length
    (filter (fun e => match e with EvHandleError _ _ _ => true | _ => false end)
            evs).

(** [work()] has returned; the first [try] statement has re-thrown. *)
Definition work_returned (evs : list Event) : bool :=
  existsb (fun e => match e with EvWork _ Returns => true | _ => false end)
          evs.

Definition cancelled_in_work (evs : list Event) : bool :=
  existsb (fun e =>
             match e with
             | EvLog WARNING m =>
                 String.eqb m "caught cancelation exception during work"
             | _ => false
             end) evs.

(** The guard on [_waitLock]: locks minus unlocks, the events that take
    place while it is held, and the places where it is held. *)
Fixpoint lock_balance (evs : list Event) : Z :=
  match evs with
  | [] => 0
  | EvLock :: rest => 1 + lock_balance rest
  | EvUnlock :: rest => lock_balance rest - 1
  | _ :: rest => lock_balance rest
  end.

Definition under_lock (e : Event) : bool :=
  match e with
  | EvEmpty _ | EvWait _ | EvDecWaiting | EvTooManyThreads _ | EvUnlock =>
      true
  | _ => false
  end.

Definition holds (p : Phase) : Z :=
  match p with
  | Locked | Aborting | Aborted | Parking | Woken | Released | Shrinking
  | Staying => 1
  | _ => 0
  end.

(** Code that leaves [_nrWaiting] alone: a step of the other threads, a
    job method. *)
Definition spares_nrWaiting (f : World -> World) : Prop :=
  forall w, _nrWaiting (queue (f w)) = _nrWaiting (queue w).

Definition job_spares_nrWaiting (j : Job) : Prop :=
  spares_nrWaiting (fun w => fst (requestStatisticsAgentSetQueueEnd j w)) /\
  spares_nrWaiting (fun w => fst (work j w)) /\
  (forall ex, spares_nrWaiting (fun w => fst (handleError j ex w))) /\
  spares_nrWaiting (fun w => fst (cleanup j w)).

(** ** Invariants of the thread state *)

(** [keeps I m]: running [m] from a state in [I] ends in a state in [I],
    however [m] completes. *)
Definition keeps {A} (I : ThreadState -> Prop) (m : M A) : Prop :=
  forall s, I s -> I (final (m s)).

(** [moves P m Q]: running [m] from a state in [P] ends in a state in
    [Q]. *)
Definition moves {A} (P : ThreadState -> Prop) (m : M A)
           (Q : ThreadState -> Prop) : Prop :=
  forall s, P s -> Q (final (m s)).

(** Nobody but the thread will touch [_nrWaiting], which is [k]. *)
Definition nrWaiting_is (k : Z) (s : ThreadState) : Prop :=
  Forall spares_nrWaiting (others s) /\
  _nrWaiting (queue (world s)) = k.

(** No other thread runs, and the queue is [q]. *)
Definition alone_with (q : DispatcherQueue) (s : ThreadState) : Prop :=
  others s = [] /\ queue (world s) = q.

(** [tracked k tr]: in the world in which each event of [tr] took place,
    [_nrWaiting] was [k] plus what the thread itself had added to it by
    then. *)
Definition tracked (k : Z) (tr : Trace) : Prop :=
  forall pre x post,
    tr = pre ++ x :: post ->
    _nrWaiting (queue (snd x)) = k + waiting_balance (events pre).

(** [tracks m]: when nobody but the thread touches [_nrWaiting], the
    counter follows the thread's own increments and decrements all along
    [m], up to and including the state in which [m] ends; [observes m]:
    the same up to the last event of [m]. *)
Definition tracks {A} (m : M A) : Prop :=
  forall k s,
    nrWaiting_is k s ->
    tracked k (trace (m s)) /\
    nrWaiting_is (k + waiting_balance (events (trace (m s)))) (final (m s)).

Definition observes {A} (m : M A) : Prop :=
  forall k s, nrWaiting_is k s -> tracked k (trace (m s)).

(** A job method that respects [I]. *)
Definition action_keeps (I : ThreadState -> Prop) (a : Action) : Prop :=
  forall s, I s -> I (set_world (fst (a (world s))) s).

Definition job_keeps (I : ThreadState -> Prop) (j : Job) : Prop :=
  action_keeps I (requestStatisticsAgentSetQueueEnd j) /\
  action_keeps I (work j) /\
  (forall ex, action_keeps I (handleError j ex)) /\
  action_keeps I (cleanup j).

(** Job code that leaves the dispatcher queue alone. *)
Definition quiet_action (a : Action) : Prop :=
  forall w, queue (fst (a w)) = queue w.

Definition quiet_job (j : Job) : Prop :=
  quiet_action (requestStatisticsAgentSetQueueEnd j) /\
  quiet_action (work j) /\
  (forall ex, quiet_action (handleError j ex)) /\
  quiet_action (cleanup j).

End DispatcherThread.

(* ===================================================================== *)
(** * Tools for running the thread monad symbolically                     *)
(* ===================================================================== *)

Import DispatcherThread.

Lemma call_cases (act : Action) (ev : Outcome -> Event) (s : ThreadState) :
  exists o s' w,
    call act ev s =
    {| completion := of_outcome o; final := s'; trace := [(ev o, w)] |}.
Proof. unfold call. eexists _, _, _. reflexivity. Qed.

Lemma shared_cases {A} (op : World -> World * A) (ev : A -> Event)
      (s : ThreadState) :
  exists a s' w,
    shared op ev s =
    {| completion := Normal a; final := s'; trace := [(ev a, w)] |}.
Proof. unfold shared. eexists _, _, _. reflexivity. Qed.


(** [bind] by the way its first part ends. *)
Lemma bind_run {A B} (m : M A) (f : A -> M B) (s : ThreadState) :
  bind m f s =
  match completion (m s) with
  | Normal a =>
      {| completion := completion (f a (final (m s)));
         final := final (f a (final (m s)));
         trace := trace (m s) ++ trace (f a (final (m s))) |}
  | Abrupt t =>
      {| completion := Abrupt t; final := final (m s); trace := trace (m s) |}
  | OutOfFuel =>
      {| completion := OutOfFuel; final := final (m s);
         trace := trace (m s) |}
  end.
Proof.
  unfold bind. destruct (m s) as [[a|t|] s1 tr1];
    cbn [completion final trace]; try reflexivity.
  destruct (f a s1); reflexivity.
Qed.

Ltac reduce_run :=
  cbv beta iota zeta delta
    [handleJob_work handleJob_finish job_setQueueEnd job_work
     job_handleError job_cleanup load_stopping
     bind try_catch LOG throw ret of_outcome
     completion final trace];
  cbn [events map fst app].

Ltac exec_step :=
  match goal with
  | |- context [call ?a ?ev ?s] =>
      let o := fresh "o" in
      let s' := fresh "s" in
      let w := fresh "w" in
      let H := fresh in
      destruct (call_cases a ev s) as (o & s' & w & H); rewrite H; clear H;
      destruct o as [|[? | ? | ? | ?]]
  | |- context [shared ?op ?ev ?s] =>
      let a := fresh "a" in
      let s' := fresh "s" in
      let w := fresh "w" in
      let H := fresh in
      destruct (shared_cases op ev s) as (a & s' & w & H); rewrite H; clear H;
      try destruct a
  | |- context [if TRI_HAVE_POSIX_THREADS ?E then _ else _] =>
      destruct (TRI_HAVE_POSIX_THREADS E) eqn:?
  end.

Ltac exec := reduce_run; repeat (exec_step; reduce_run).






(** ** The two halves of [handleJob] *)

Lemma handleJob_split (E : Env) (job : JobPtr) (s : ThreadState) :
  handleJob E job s =
  let start := (EvLog DEBUG ("starting to run job: " ++ getName (jobs E job)),
                world s) in
  let rw := handleJob_work E job s in
  match completion rw with
  | Normal _ =>
      let rf := handleJob_finish E job (final rw) in
      {| completion := completion rf; final := final rf;
         trace := start :: trace rw ++ trace rf |}
  | Abrupt t =>
      {| completion := Abrupt t; final := final rw;
         trace := start :: trace rw |}
  | OutOfFuel =>
      {| completion := OutOfFuel; final := final rw;
         trace := start :: trace rw |}
  end.
Proof.
  unfold handleJob, bind, LOG. cbv zeta.
  destruct (handleJob_work E job s) as [[a|t|] s1 tr1];
    cbn [completion final trace app]; try reflexivity.
  destruct (handleJob_finish E job s1) as [c s2 tr2]; reflexivity.
Qed.

(** How the second [try] statement can go. *)
Lemma handleJob_finish_cases (E : Env) (job : JobPtr) (s : ThreadState) :
  (events (trace (handleJob_finish E job s)) = [EvCleanup job Returns] /\
   completion (handleJob_finish E job s) = Normal tt) \/
  (exists t,
      TRI_HAVE_POSIX_THREADS E = true /\
      events (trace (handleJob_finish E job s)) =
      [EvCleanup job (Throws t); EvLoadStopping true;
       EvLog WARNING "caught cancelation exception during cleanup"] /\
      completion (handleJob_finish E job s) = Abrupt t) \/
  (exists t,
      TRI_HAVE_POSIX_THREADS E = true /\
      events (trace (handleJob_finish E job s)) =
      [EvCleanup job (Throws t); EvLoadStopping false;
       EvLog WARNING "caught error while cleaning up!"] /\
      completion (handleJob_finish E job s) = Normal tt) \/
  (exists t,
      TRI_HAVE_POSIX_THREADS E = false /\
      events (trace (handleJob_finish E job s)) =
      [EvCleanup job (Throws t);
       EvLog WARNING "caught error while cleaning up!"] /\
      completion (handleJob_finish E job s) = Normal tt).
Proof.
  exec.
  all: first
         [ left; split; reflexivity
         | right; left; eexists; repeat split; reflexivity
         | right; right; left; eexists; repeat split; reflexivity
         | right; right; right; eexists; repeat split; reflexivity ].
Qed.

(** The events of [handleJob]: the opening log line, the first [try]
    statement, and the second one unless the first has thrown. *)
Lemma handleJob_events (E : Env) (job : JobPtr) (s : ThreadState) :
  exists s1,
    (completion (handleJob_work E job s) = Normal tt /\
     events (trace (handleJob E job s)) =
     EvLog DEBUG ("starting to run job: " ++ getName (jobs E job))
     :: events (trace (handleJob_work E job s))
        ++ events (trace (handleJob_finish E job s1)) /\
     completion (handleJob E job s) =
     completion (handleJob_finish E job s1)) \/
    (exists t,
        completion (handleJob_work E job s) = Abrupt t /\
        events (trace (handleJob E job s)) =
        EvLog DEBUG ("starting to run job: " ++ getName (jobs E job))
        :: events (trace (handleJob_work E job s)) /\
        completion (handleJob E job s) = Abrupt t).
Proof.
  exists (final (handleJob_work E job s)).
  rewrite handleJob_split. cbv zeta.
  assert (Hfuel : completion (handleJob_work E job s) <> OutOfFuel).
  { exec; discriminate. }
  destruct (completion (handleJob_work E job s)) as [[]|t|].
  - left. cbn [completion trace events map fst]. rewrite map_app. auto.
  - right. exists t. cbn [completion trace events map fst]. auto.
  - contradiction.
Qed.


(** The first [try] statement throws only on the cancellation path. *)
Lemma handleJob_work_abrupt (E : Env) (job : JobPtr) (s : ThreadState) t :
  completion (handleJob_work E job s) = Abrupt t ->
  TRI_HAVE_POSIX_THREADS E = true /\
  (exists tag, t = Unrecognized tag) /\
  (events (trace (handleJob_work E job s)) =
   [EvSetQueueEnd job Returns; EvWork job (Throws t); EvLoadStopping true;
    EvLog WARNING "caught cancelation exception during work"] \/
   events (trace (handleJob_work E job s)) =
   [EvSetQueueEnd job (Throws t); EvLoadStopping true;
    EvLog WARNING "caught cancelation exception during work"]).
Proof.
  exec.
  all: intros H; try discriminate H; injection H as <-.
  all: repeat split; eauto.
Qed.









(* ===================================================================== *)
(** * [handleJob]: containment of failures                                *)
(* ===================================================================== *)
















(* ===================================================================== *)
(** * [run] follows the protocol of the scheduling loop                   *)
(* ===================================================================== *)

Ltac reduce_idle :=
  cbv beta iota zeta delta
    [inc_nrWaiting dec_nrWaiting lock_waitLock unlock_waitLock
     readyJobs_empty wait usleep bind ret negb
     completion final trace];
  cbn [events map fst app].

Section Protocol.

Variable E : Env.
Variable this : Z.

Lemma follow_app (p : Phase) (l1 l2 : list Event) :
  follow this p (l1 ++ l2) =
  match follow this p l1 with
  | Some q => follow this q l2
  | None => None
  end.
Proof.
  revert p. induction l1 as [|e l1 IH]; intros p; simpl.
  - reflexivity.
  - destruct (step this p e); [apply IH | reflexivity].
Qed.

Lemma events_app (t1 t2 : Trace) : events (t1 ++ t2) = events t1 ++ events t2.
Proof. apply map_app. Qed.

Lemma leads_bind {A B} (p : Phase) (m : M A) (f : A -> M B) (s : ThreadState)
      (Q : Completion A -> Phase -> Prop) (R : Completion B -> Phase -> Prop) :
  leads this p (m s) Q ->
  (forall a q, completion (m s) = Normal a -> Q (Normal a) q ->
               leads this q (f a (final (m s))) R) ->
  (forall t q, Q (Abrupt t) q -> R (Abrupt t) q) ->
  (forall q, Q OutOfFuel q -> R OutOfFuel q) ->
  leads this p (bind m f s) R.
Proof.
  intros (q & Hq & HQ) Hk Ht Hf. unfold bind, leads in *.
  destruct (m s) as [[a|t|] s1 tr1]; cbn [completion final trace] in *.
  - destruct (Hk a q eq_refl HQ) as (q' & Hq' & HR).
    destruct (f a s1) as [c s2 tr2]; cbn [completion final trace] in *.
    exists q'. rewrite events_app, follow_app, Hq. auto.
  - exists q. auto.
  - exists q. auto.
Qed.

Lemma leads_ret {A} (p : Phase) (a : A) (s : ThreadState)
      (Q : Completion A -> Phase -> Prop) :
  Q (Normal a) p -> leads this p (ret a s) Q.
Proof. intros H. exists p. auto. Qed.

Lemma leads_shared {A} (p : Phase) (op : World -> World * A)
      (ev : A -> Event) (s : ThreadState) (next : A -> Phase) :
  (forall a, step this p (ev a) = Some (next a)) ->
  leads this p (shared op ev s)
        (fun c q => exists a, c = Normal a /\ q = next a).
Proof.
  intros H. unfold leads, shared. cbn [completion trace events map fst follow].
  rewrite H. eauto.
Qed.

Lemma leads_weaken {A} (p : Phase) (r : Run A)
      (Q Q' : Completion A -> Phase -> Prop) :
  leads this p r Q -> (forall c q, Q c q -> Q' c q) -> leads this p r Q'.
Proof. intros (q & Hq & HQ) H. exists q. auto. Qed.

(** [handleJob] stays inside the drain phase, or unwinds. *)
Lemma handleJob_work_leads (job : JobPtr) (s : ThreadState) :
  leads this Draining (handleJob_work E job s) after_job.
Proof.
  unfold leads, after_job. exec.
  all: eexists; split; [reflexivity|]; cbn; auto.
Qed.

Lemma handleJob_finish_leads (job : JobPtr) (s : ThreadState) :
  leads this Draining (handleJob_finish E job s) after_job.
Proof.
  unfold leads, after_job. exec.
  all: eexists; split; [reflexivity|]; cbn; auto.
Qed.

Lemma handleJob_leads (job : JobPtr) (s : ThreadState) :
  leads this Draining (handleJob E job s) after_job.
Proof.
  unfold handleJob.
  apply leads_bind with (Q := fun c q => c = Normal tt /\ q = Draining).
  - exists Draining. repeat split.
  - intros [] q _ (_ & ->).
    apply leads_bind with (Q := after_job).
    + apply handleJob_work_leads.
    + intros [] q _ ->. apply handleJob_finish_leads.
    + auto.
    + auto.
  - intros t q (H & _). discriminate H.
  - intros q (H & _). discriminate H.
Qed.

Lemma drain_leads (fuel : nat) (now worked : float) (s : ThreadState) :
  leads this Draining (drain E fuel now worked s) after_drain.
Proof.
  revert worked s. induction fuel as [|fuel IH]; intros worked s.
  - exists Draining. split; reflexivity.
  - cbn [drain].
    apply leads_bind
      with (Q := fun c q =>
                   exists r, c = Normal r /\
                             q = match r with
                                 | None => Idle
                                 | Some j => if j =? nullptr then Draining
                                             else Popped
                                 end).
    + apply leads_shared. intros [j|]; reflexivity.
    + intros r q _ (r' & [= <-] & ->).
      destruct r as [j|].
      * destruct (j =? nullptr).
        { apply IH. }
        apply leads_bind with (Q := fun c q => c = Normal tt /\ q = Draining).
        { eapply leads_weaken.
          - apply leads_shared with (next := fun _ => Draining). reflexivity.
          - intros c q ([] & -> & ->). auto. }
        { intros [] q _ (_ & ->).
          apply leads_bind with (Q := after_job).
          - apply handleJob_leads.
          - intros [] q _ ->. apply IH.
          - auto.
          - intros q []. }
        { intros t q (H & _). discriminate H. }
        { intros q (H & _). discriminate H. }
      * apply leads_ret. reflexivity.
    + intros t q (r & H & _). discriminate H.
    + intros q (r & H & _). discriminate H.
Qed.

Lemma idle_leads (now worked : float) (s : ThreadState) :
  leads this Idle (idle E this now worked s) after_idle.
Proof.
  unfold leads, after_idle, idle.
  destruct (worked + grace <? now)%float; [|destruct (worked <? now)%float].
  all: reduce_idle; repeat (exec_step; reduce_idle).
  all: cbn [follow step]; rewrite ?Z.eqb_refl; cbn [follow step].
  all: eexists; split; [reflexivity|]; auto.
Qed.

Lemma run_loop_leads (fuel : nat) (worked : float) (s : ThreadState)
      (p : Phase) :
  p = AtLoopTop \/ p = Idle ->
  leads this p (run_loop E this fuel worked s) after_loop.
Proof.
  revert worked s p. induction fuel as [|fuel IH]; intros worked s p Hp.
  - exists p. split; [reflexivity|].
    cbn. unfold in_a_loop. tauto.
  - cbn [run_loop].
    apply leads_bind
      with (Q := fun c q => exists b : bool,
                     c = Normal b /\ q = if b then Leaving else Checked).
    + apply leads_shared. intros b. destruct Hp as [-> | ->]; reflexivity.
    + intros b q _ (b' & [= <-] & ->).
      destruct b; [apply leads_ret; reflexivity|].
      apply leads_bind
        with (Q := fun c q => exists t : float,
                       c = Normal t /\ q = Draining).
      { apply leads_shared. reflexivity. }
      { intros now q _ (t & _ & ->).
        apply leads_bind with (Q := after_drain).
        - apply drain_leads.
        - intros worked' q _ ->.
          apply leads_bind with (Q := after_idle).
          + apply idle_leads.
          + intros [|] q _ Hq.
            * apply IH. exact Hq.
            * apply leads_ret. exact Hq.
          + intros t' q [].
          + intros q [].
        - auto.
        - intros q ->. cbn. unfold in_a_loop. tauto. }
      { intros t q (? & H & _). discriminate H. }
      { intros q (? & H & _). discriminate H. }
    + intros t q (? & H & _). discriminate H.
    + intros q (? & H & _). discriminate H.
Qed.

(** Every run of the thread, finished or cut short by the fuel, is a path
    of the protocol from the top of the loop. *)
Lemma run_leads (fuel : nat) (s : ThreadState) :
  leads this AtLoopTop (run E this fuel s) after_run.
Proof.
  unfold run.
  apply leads_bind with (Q := fun c q => c = Normal tt /\ q = AtLoopTop).
  - exists AtLoopTop. repeat split.
  - intros [] q _ (_ & ->).
    apply leads_bind with (Q := after_loop).
    + apply run_loop_leads. auto.
    + intros [] q _ ->.
      apply leads_bind
        with (Q := fun c q => c = Normal tt /\ q = Deregistering).
      * exists Deregistering. repeat split.
      * intros [] q _ (_ & ->).
        eapply leads_weaken.
        { apply leads_shared with (next := fun _ => Terminated).
          intros _. cbn [step]. rewrite Z.eqb_refl. reflexivity. }
        { intros c q ([] & -> & ->). reflexivity. }
      * intros t q (H & _). discriminate H.
      * intros q (H & _). discriminate H.
    + auto.
    + auto.
  - intros t q (H & _). discriminate H.
  - intros q (H & _). discriminate H.
Qed.

End Protocol.

(* ===================================================================== *)
(** * Facts about the protocol                                            *)
(* ===================================================================== *)

(** [invert_step H]: the places and events for which the step [H] exists. *)
Ltac invert_step H :=
  match type of H with
  | step _ ?q ?e = Some _ =>
      first [is_var q; destruct q | idtac];
      first [is_var e; destruct e | idtac];
      cbn [step] in H; try discriminate H;
      repeat match type of H with
             | context [if ?c then _ else _] =>
                 destruct c eqn:?; try discriminate H
             | context [match ?x with _ => _ end] =>
                 destruct x; try discriminate H
             end;
      try (injection H as H)
  end.

Section ProtocolFacts.

Variable this : Z.

Lemma follow_split (p r : Phase) (pre post : list Event) (e : Event) :
  follow this p (pre ++ e :: post) = Some r ->
  exists q q',
    follow this p pre = Some q /\ step this q e = Some q' /\
    follow this q' post = Some r.
Proof.
  rewrite follow_app. destruct (follow this p pre) as [q|]; [|discriminate].
  cbn [follow]. destruct (step this q e) as [q'|] eqn:Hs; [|discriminate].
  eauto.
Qed.

Lemma follow_snoc (p r : Phase) (l : list Event) (e : Event) :
  follow this p (l ++ [e]) = Some r ->
  exists q, follow this p l = Some q /\ step this q e = Some r.
Proof.
  intros H. apply follow_split in H. destruct H as (q & q' & H1 & H2 & H3).
  cbn in H3. injection H3 as <-. eauto.
Qed.

(** A path that has moved ends with a step. *)
Lemma follow_last (p r : Phase) (l : list Event) :
  follow this p l = Some r ->
  (l = [] /\ r = p) \/
  (exists l' e q, l = l' ++ [e] /\ follow this p l' = Some q /\
                  step this q e = Some r).
Proof.
  destruct l as [|a l] using rev_ind; intros H.
  - left. cbn in H. injection H as <-. auto.
  - right. apply follow_snoc in H. destruct H as (q & H1 & H2). eauto 6.
Qed.

Lemma step_counted (q q' : Phase) (e : Event) :
  step this q e = Some q' ->
  counted q + waiting_balance [e] = counted q' /\
  (counted q = 1 -> is_park_event e = true).
Proof.
  intros H. invert_step H; subst q'; cbn; split; auto; discriminate.
Qed.

Lemma waiting_balance_app (l1 l2 : list Event) :
  waiting_balance (l1 ++ l2) = waiting_balance l1 + waiting_balance l2.
Proof.
  induction l1 as [|e l1 IH]; cbn [app waiting_balance].
  - reflexivity.
  - destruct e; rewrite ?IH; lia.
Qed.

(** The thread's own contribution to [_nrWaiting] is read off the place it
    is at. *)
Lemma follow_counted (p q : Phase) (l : list Event) :
  follow this p l = Some q ->
  counted p + waiting_balance l = counted q.
Proof.
  revert p. induction l as [|e l IH]; intros p H; cbn [follow] in H.
  - injection H as <-. cbn. lia.
  - destruct (step this p e) as [p'|] eqn:Hs; [|discriminate].
    apply IH in H. apply step_counted in Hs. destruct Hs as [Hs _].
    change (e :: l) with ([e] ++ l). rewrite waiting_balance_app. lia.
Qed.




Lemma step_wait (q q' : Phase) (u : Z) :
  step this q (EvWait u) = Some q' -> u = wait_delay (uintptr_t this).
Proof. intros H. invert_step H. apply Z.eqb_eq in Heqb. exact Heqb. Qed.




Lemma step_incWaiting (q q' : Phase) :
  step this q EvIncWaiting = Some q' -> q' = Announced.
Proof. intros H. invert_step H; subst; auto. Qed.









End ProtocolFacts.

(* ===================================================================== *)
(** * The counter [_nrWaiting] along a run                                *)
(* ===================================================================== *)

(** The steps of the other threads leave the invariant alone. *)
Lemma nrWaiting_interleave (k : Z) (s : ThreadState) :
  nrWaiting_is k s -> nrWaiting_is k (interleave s).
Proof.
  unfold nrWaiting_is, interleave. intros (Ho & Hk).
  destruct (others s) as [|f rest] eqn:Heq.
  - rewrite Heq. auto.
  - pose proof (Forall_inv Ho) as Hf.
    pose proof (Forall_inv_tail Ho) as Hrest.
    cbn. split; [exact Hrest|]. rewrite Hf. exact Hk.
Qed.

Lemma tracked_nil (k : Z) : tracked k [].
Proof. intros pre x post H. destruct pre; discriminate H. Qed.

Lemma tracked_one (k : Z) (e : Event) (w : World) :
  _nrWaiting (queue w) = k -> tracked k [(e, w)].
Proof.
  intros Hk pre x post H.
  destruct pre as [|y pre]; simpl in H.
  - injection H as <- _. cbn. lia.
  - injection H as _ H. destruct pre; discriminate H.
Qed.

Lemma tracked_app (k : Z) (t1 t2 : Trace) :
  tracked k t1 ->
  tracked (k + waiting_balance (events t1)) t2 ->
  tracked k (t1 ++ t2).
Proof.
  intros H1 H2 pre x post H.
  apply app_eq_app in H. destruct H as (l & [(-> & Hl) | (-> & Hl)]).
  - destruct l as [|y l]; simpl in Hl.
    + rewrite app_nil_r in *. rewrite (H2 [] x post (eq_sym Hl)). cbn. lia.
    + injection Hl as <- ->. apply (H1 pre x l eq_refl).
  - rewrite (H2 l x post Hl), events_app, waiting_balance_app. lia.
Qed.

Lemma tracks_observes {A} (m : M A) : tracks m -> observes m.
Proof. intros H k s Hs. apply (H k s Hs). Qed.

Lemma tracks_still {A} (m : M A) :
  (forall s, trace (m s) = [] /\
             world (final (m s)) = world s /\
             others (final (m s)) = others s) ->
  tracks m.
Proof.
  intros H k s (Ho & Hk). destruct (H s) as (-> & Hw & Hoth).
  split; [apply tracked_nil|]. cbn. rewrite Z.add_0_r.
  split; [rewrite Hoth | rewrite Hw]; assumption.
Qed.

Lemma tracks_ret {A} (a : A) : tracks (ret a).
Proof. apply tracks_still. intros s. auto. Qed.

Lemma tracks_throw {A} (t : Throwable) : tracks (@throw A t).
Proof. apply tracks_still. intros s. auto. Qed.

Lemma tracks_out_of_fuel {A} : tracks (@out_of_fuel A).
Proof. apply tracks_still. intros s. auto. Qed.

Lemma tracks_LOG (lvl : LogLevel) (msg : string) : tracks (LOG lvl msg).
Proof.
  intros k s (Ho & Hk). unfold LOG. cbn [trace final events map fst].
  split; [apply tracked_one; exact Hk|].
  cbn. rewrite Z.add_0_r. split; assumption.
Qed.

Lemma tracks_bind {A B} (m : M A) (f : A -> M B) :
  tracks m -> (forall a, tracks (f a)) -> tracks (bind m f).
Proof.
  intros Hm Hf k s H. rewrite bind_run. destruct (Hm k s H) as (Ht & Hs).
  destruct (completion (m s)) as [a|t|]; cbn [trace final]; auto.
  destruct (Hf a _ _ Hs) as (Ht2 & Hs2).
  rewrite events_app, waiting_balance_app, Z.add_assoc.
  split; [apply tracked_app|]; assumption.
Qed.

Lemma observes_bind {A B} (m : M A) (f : A -> M B) :
  tracks m -> (forall a, observes (f a)) -> observes (bind m f).
Proof.
  intros Hm Hf k s H. rewrite bind_run. destruct (Hm k s H) as (Ht & Hs).
  destruct (completion (m s)) as [a|t|]; cbn [trace final]; auto.
  apply tracked_app; [exact Ht|]. apply Hf. exact Hs.
Qed.

Lemma tracks_try_catch {A} (body : M A) (handler : Throwable -> M A) :
  tracks body -> (forall t, tracks (handler t)) ->
  tracks (try_catch body handler).
Proof.
  intros Hb Hh k s H. unfold try_catch. destruct (Hb k s H) as (Ht & Hs).
  destruct (body s) as [[a|t|] s1 tr1]; cbn [trace final] in *; auto.
  destruct (Hh t _ _ Hs) as (Ht2 & Hs2).
  destruct (handler t s1) as [c s2 tr2]; cbn [trace final] in *.
  rewrite events_app, waiting_balance_app, Z.add_assoc.
  split; [apply tracked_app|]; assumption.
Qed.

(** An access to the shared state that changes [_nrWaiting] by what its
    event says. *)
Lemma tracks_shared {A} (op : World -> World * A) (ev : A -> Event) :
  (forall w, _nrWaiting (queue (fst (op w))) =
             _nrWaiting (queue w) + waiting_balance [ev (snd (op w))]) ->
  tracks (shared op ev).
Proof.
  intros Hop k s H. apply nrWaiting_interleave in H. destruct H as (Ho & Hk).
  unfold shared. cbn [trace final events map fst].
  split; [apply tracked_one; exact Hk|].
  split; [exact Ho|]. cbn [world set_world]. rewrite Hop, Hk. reflexivity.
Qed.

(** Whatever an access does to the state, the event is recorded with the
    counter as it was. *)
Lemma observes_shared {A} (op : World -> World * A) (ev : A -> Event) :
  observes (shared op ev).
Proof.
  intros k s H. apply nrWaiting_interleave in H. destruct H as (Ho & Hk).
  unfold shared. cbn [trace]. apply tracked_one. exact Hk.
Qed.

Lemma tracks_call (act : Action) (ev : Outcome -> Event) :
  spares_nrWaiting (fun w => fst (act w)) ->
  (forall o, waiting_balance [ev o] = 0) ->
  tracks (call act ev).
Proof.
  intros Hact Hev k s H. apply nrWaiting_interleave in H.
  destruct H as (Ho & Hk).
  unfold call. cbn [trace final events map fst].
  split; [apply tracked_one; exact Hk|].
  split; [exact Ho|]. cbn [world set_world].
  rewrite Hev, Z.add_0_r, <- Hk. apply Hact.
Qed.

Ltac tracks_step :=
  first
    [ apply tracks_bind
    | apply tracks_try_catch
    | apply tracks_LOG
    | apply tracks_ret
    | apply tracks_throw
    | apply tracks_out_of_fuel
    | apply tracks_call; [solve [auto] | intros ?; reflexivity]
    | apply tracks_shared;
      let w := fresh "w" in
      intros w; try destruct (_readyJobs (queue w)); cbn; lia
    | match goal with
      | |- tracks (if ?c then _ else _) => destruct c
      | |- tracks (match ?t with _ => _ end) => destruct t
      | |- forall _, _ => intros ?
      end ].

Section Tracking.

Variable E : Env.
Variable this : Z.
Hypothesis jobs_spare : forall p, job_spares_nrWaiting (jobs E p).

Lemma handleJob_tracks (job : JobPtr) : tracks (handleJob E job).
Proof.
  destruct (jobs_spare job) as (Hq & Hw & Hh & Hc).
  unfold handleJob, handleJob_work, handleJob_finish, job_setQueueEnd,
    job_work, job_handleError, job_cleanup, load_stopping.
  cbv zeta.
  repeat tracks_step.
Qed.

Lemma drain_tracks (fuel : nat) (now worked : float) :
  tracks (drain E fuel now worked).
Proof.
  revert worked. induction fuel as [|fuel IH]; intros worked.
  - apply tracks_out_of_fuel.
  - cbn [drain]. unfold pop, dec_numberJobs.
    apply tracks_bind; [tracks_step|].
    intros [j|]; [|apply tracks_ret].
    destruct (j =? nullptr); [apply IH|].
    apply tracks_bind; [tracks_step|]. intros _.
    apply tracks_bind; [apply handleJob_tracks|]. intros _.
    apply IH.
Qed.

Lemma idle_tracks (now worked : float) : tracks (idle E this now worked).
Proof.
  unfold idle, inc_nrWaiting, lock_waitLock, readyJobs_empty, dec_nrWaiting,
    unlock_waitLock, wait, usleep.
  cbv zeta.
  repeat tracks_step.
Qed.

Lemma run_loop_tracks (fuel : nat) (worked : float) :
  tracks (run_loop E this fuel worked).
Proof.
  revert worked. induction fuel as [|fuel IH]; intros worked.
  - apply tracks_out_of_fuel.
  - cbn [run_loop]. unfold load_stopping, TRI_microtime.
    apply tracks_bind; [tracks_step|].
    intros [|]; [apply tracks_ret|].
    apply tracks_bind; [tracks_step|]. intros now.
    apply tracks_bind; [apply drain_tracks|]. intros worked'.
    apply tracks_bind; [apply idle_tracks|].
    intros [|]; [apply IH | apply tracks_ret].
Qed.

Lemma set_currentDispatcherThread_tracks (p : Z) :
  tracks (set_currentDispatcherThread p).
Proof. apply tracks_still. intros s. auto. Qed.

(** Along [run] the counter is followed up to the call of
    [removeStartedThread], and beyond it when that call leaves the counter
    alone. *)
Lemma run_observes (fuel : nat) : observes (run E this fuel).
Proof.
  unfold run.
  apply observes_bind; [apply set_currentDispatcherThread_tracks|]. intros _.
  apply observes_bind; [apply run_loop_tracks|]. intros _.
  apply observes_bind; [apply tracks_LOG|]. intros _.
  apply observes_shared.
Qed.

Lemma run_tracks (fuel : nat) :
  spares_nrWaiting (removeStartedThread E this) ->
  tracks (run E this fuel).
Proof.
  intros Hr. unfold run.
  apply tracks_bind; [apply set_currentDispatcherThread_tracks|]. intros _.
  apply tracks_bind; [apply run_loop_tracks|]. intros _.
  apply tracks_bind; [apply tracks_LOG|]. intros _.
  apply tracks_shared. intros w. cbn. rewrite Hr. lia.
Qed.

End Tracking.

Lemma sample_jobs_spare_nrWaiting (p : JobPtr) :
  job_spares_nrWaiting (sample_jobs p).
Proof.
  unfold sample_jobs.
  repeat match goal with
         | |- context [if ?c then _ else _] => destruct c
         end; repeat split; intros; reflexivity.
Qed.

(* ===================================================================== *)
(** * [run]: the scheduling loop                                          *)
(* ===================================================================== *)

Section SchedulingLoop.

Variable E : Env.
Variable this : Z.

Lemma after_run_cases (c : Completion unit) (q : Phase) :
  after_run c q ->
  (q = Terminated /\ c = Normal tt) \/
  (q = Unwound /\ exists t, c = Abrupt t) \/
  (in_a_loop q /\ c = OutOfFuel).
Proof. destruct c as [[]|t|]; cbn; intros H; eauto 6. Qed.

(** The events of [run], split at one of them: the places before and
    after it, and where the rest ends. *)
Lemma run_at (fuel : nat) (s : ThreadState) (pre post : list Event)
      (e : Event) :
  events (trace (run E this fuel s)) = pre ++ e :: post ->
  exists q q' r,
    follow this AtLoopTop pre = Some q /\ step this q e = Some q' /\
    follow this q' post = Some r /\
    after_run (completion (run E this fuel s)) r.
Proof.
  intros H. destruct (run_leads E this fuel s) as (r & Hf & Ha).
  rewrite H in Hf. apply follow_split in Hf.
  destruct Hf as (q & q' & H1 & H2 & H3). eauto 8.
Qed.

Ltac not_an_end H :=
  apply after_run_cases in H;
  destruct H as [(H & _) | [(H & _) | ([H | [H | H]] & _)]];
  discriminate H.



(** [next_event H]: the first event of a path [H] out of a known place. *)
Ltac next_event H :=
  match type of H with
  | follow _ ?p ?l = Some _ =>
      let e := fresh "e" in
      let Hs := fresh "Hs" in
      destruct l as [|e l]; cbn [follow] in H;
      [ injection H as <-
      | destruct (step this p e) eqn:Hs; [|discriminate H];
        invert_step Hs; subst ]
  end.

(** C7.  Every [wait] of a run has the delay [wait_delay] computed from
    the address of the thread object, [(1 + ((n >> 3) % 9)) * 100 * 1000]
    microseconds with [n = (uintptr_t) this]: the three low bits are
    dropped and the rest is reduced modulo 9.  The delay is a multiple of
    100 ms between 100 ms and 900 ms, hence within 100 ms and 1000 ms, and
    nothing makes two threads wait equally long: the addresses 8 and 16
    give 200 ms and 300 ms. *)
Theorem park_timeout_from_identity (fuel : nat) (s : ThreadState) :
  (forall u,
      In (EvWait u) (events (trace (run E this fuel s))) ->
      u = wait_delay (uintptr_t this)) /\
  (forall n, wait_delay n = (1 + Z.shiftr n 3 mod 9) * 100000) /\
  (forall n, 100 * 1000 <= wait_delay n <= 1000 * 1000) /\
  (forall n, wait_delay n <= 900 * 1000) /\
  wait_delay 8 = 200 * 1000 /\ wait_delay 16 = 300 * 1000.
Proof.
  assert (Hbucket : forall n, 0 <= Z.shiftr n 3 mod 9 < 9).
  { intros n. apply Z.mod_pos_bound. lia. }
  assert (Hval : forall n, wait_delay n = (1 + Z.shiftr n 3 mod 9) * 100000).
  { intros n. unfold wait_delay, uintptr_t. specialize (Hbucket n).
    assert (H64 : 2 ^ 64 = 18446744073709551616) by reflexivity.
    rewrite H64.
    rewrite (Z.mod_small (1 + _)) by lia.
    rewrite (Z.mod_small (_ * 100)) by lia.
    rewrite Z.mod_small by lia. lia. }
  split; [|split; [|split; [|split; [|split]]]].
  - intros u Hin. apply in_split in Hin. destruct Hin as (pre & post & H).
    apply run_at in H. destruct H as (q & q' & r & _ & Hs & _).
    apply step_wait in Hs. exact Hs.
  - exact Hval.
  - intros n. rewrite Hval. specialize (Hbucket n). lia.
  - intros n. rewrite Hval. specialize (Hbucket n). lia.
  - reflexivity.
  - reflexivity.
Qed.


Lemma counted_range (q : Phase) : counted q = 0 \/ counted q = 1.
Proof. destruct q; cbn; auto. Qed.

(** C9.  Counting what the thread itself adds to and takes from
    [_nrWaiting]: over a whole run the balance is zero; before every event
    it is zero or one, and it is one only before the events of a park
    episode ([lock], the second look at the queue, [wait], the decrement),
    so it is zero whenever the thread reads [_stopping], samples the time,
    pops, runs a job method, sleeps, increments again or calls
    [removeStartedThread]; and every increment is followed by the lock,
    the second look at the queue, the wait when the queue was empty, and
    then the one decrement that matches it.  The counter itself follows
    this balance: when neither the other threads nor the job methods
    change [_nrWaiting], its value in the world of every event of the run
    is its value at the start plus the balance so far, so it is one above
    the start during a park episode and at the start everywhere else; and
    when [removeStartedThread] leaves it alone too, the run ends with the
    value it started with. *)
Theorem nrWaiting_balanced (fuel : nat) (s : ThreadState) :
  waiting_balance (events (trace (run E this fuel s))) = 0 /\
  (forall pre e post,
      events (trace (run E this fuel s)) = pre ++ e :: post ->
      (waiting_balance pre = 0 \/ waiting_balance pre = 1) /\
      (is_park_event e = false -> waiting_balance pre = 0)) /\
  (forall pre post,
      events (trace (run E this fuel s)) = pre ++ EvIncWaiting :: post ->
      exists b rest,
        post =
        EvLock :: EvEmpty b
          :: (if b then [EvWait (wait_delay (uintptr_t this))] else [])
          ++ EvDecWaiting :: rest /\
        waiting_balance (pre ++ [EvIncWaiting; EvLock; EvEmpty b]
                             ++ (if b
                                 then [EvWait (wait_delay (uintptr_t this))]
                                 else [])
                             ++ [EvDecWaiting]) = 0) /\
  (Forall spares_nrWaiting (others s) ->
   (forall p, job_spares_nrWaiting (jobs E p)) ->
   (forall pre x post,
       trace (run E this fuel s) = pre ++ x :: post ->
       _nrWaiting (queue (snd x)) =
       _nrWaiting (queue (world s)) + waiting_balance (events pre)) /\
   (spares_nrWaiting (removeStartedThread E this) ->
    _nrWaiting (queue (world (final (run E this fuel s)))) =
    _nrWaiting (queue (world s)))).
Proof.
  assert (Hzero : waiting_balance (events (trace (run E this fuel s))) = 0).
  { destruct (run_leads E this fuel s) as (r & Hf & Ha).
    apply follow_counted in Hf.
    apply after_run_cases in Ha.
    destruct Ha as [(-> & _) | [(-> & _) | ([-> | [-> | ->]] & _)]];
      cbn [counted] in Hf; lia. }
  split; [exact Hzero|]. split; [|split].
  - intros pre e post H. apply run_at in H.
    destruct H as (q & q' & r & Hpre & Hs & _).
    apply follow_counted in Hpre. cbn [counted] in Hpre.
    apply step_counted in Hs. destruct Hs as (_ & Hs).
    destruct (counted_range q) as [Hq | Hq].
    + split; [left; lia|]. intros _. lia.
    + split; [right; lia|]. intros He. rewrite (Hs Hq) in He. discriminate He.
  - intros pre post H. apply run_at in H.
    destruct H as (q & q' & r & Hpre & Hs & Hf & Ha).
    apply follow_counted in Hpre. cbn [counted] in Hpre.
    pose proof (step_counted _ _ _ _ Hs) as (Hq & _).
    apply step_incWaiting in Hs. subst q'. cbn in Hq.
    next_event Hf; [not_an_end Ha|].
    next_event Hf; [not_an_end Ha| |].
    + next_event Hf; [not_an_end Ha|].
      next_event Hf; [not_an_end Ha|].
      match goal with
      | Hu : (_ =? _) = true |- _ => apply Z.eqb_eq in Hu; rewrite Hu
      end.
      exists true, post. split; [reflexivity|].
      rewrite !waiting_balance_app. cbn. lia.
    + next_event Hf; [not_an_end Ha|].
      exists false, post. split; [reflexivity|].
      rewrite !waiting_balance_app. cbn. lia.
  - intros Ho Hj.
    assert (Hs : nrWaiting_is (_nrWaiting (queue (world s))) s)
      by (split; [exact Ho | reflexivity]).
    split.
    + exact (run_observes E this Hj fuel _ s Hs).
    + intros Hr.
      destruct (run_tracks E this Hj fuel Hr _ s Hs) as (_ & _ & Hfin).
      rewrite Hfin, Hzero. lia.
Qed.

(** C4 (amended).  When [worked + grace < now], that is when the thread
    has been idle for MORE than the 200 ms of [grace], [idle] increments
    [_nrWaiting], takes the lock and looks at the queue again.  If the
    queue is not empty at that moment, it decrements [_nrWaiting], releases
    the lock and goes on with the next iteration ([Continue]) without
    waiting on the condition variable; if it is empty, it waits.  In a run,
    what follows an aborted park is the top of the outer loop.  (When the
    idle time is exactly [grace] the thread does not park, as a concrete
    run further down shows.) *)
Theorem park_rechecks_queue (fuel : nat) (now worked : float)
        (s : ThreadState) :
  ((worked + grace <? now)%float = true ->
   exists w1 w2 w3 rest,
     trace (idle E this now worked s) =
     (EvIncWaiting, w1) :: (EvLock, w2)
       :: (EvEmpty match _readyJobs (queue w3) with
                   | [] => true
                   | _ :: _ => false
                   end, w3)
       :: rest /\
     match _readyJobs (queue w3) with
     | _ :: _ =>
         events rest = [EvDecWaiting; EvUnlock] /\
         completion (idle E this now worked s) = Normal Continue
     | [] =>
         exists many,
           events rest = [EvWait (wait_delay (uintptr_t this)); EvDecWaiting;
                          EvTooManyThreads many; EvUnlock] /\
           completion (idle E this now worked s) =
           Normal (if many then Break else Continue)
     end) /\
  (forall pre post,
      events (trace (run E this fuel s)) =
      pre ++ EvIncWaiting :: EvLock :: EvEmpty false :: post ->
      exists rest,
        post = EvDecWaiting :: EvUnlock :: rest /\
        (rest = [] \/ exists b rest', rest = EvLoadStopping b :: rest')).
Proof.
  split.
  - intros H. unfold idle. rewrite H.
    cbv beta iota zeta delta
      [bind ret shared inc_nrWaiting lock_waitLock readyJobs_empty
       dec_nrWaiting unlock_waitLock wait fst snd
       completion final trace].
    match goal with
    | |- context [EvEmpty match _readyJobs (queue ?w) with _ => _ end] =>
        exists (world (interleave s)), (world (interleave
                 (set_world (set_queue (set_nrWaiting
                    (_nrWaiting (queue (world (interleave s))) + 1)
                    (queue (world (interleave s)))) (world (interleave s)))
                    (interleave s)))), w;
        destruct (_readyJobs (queue w)) as [|j ready]
    end.
    + cbn [negb].
      match goal with
      | |- context [tooManyThreads E ?w] => destruct (tooManyThreads E w)
      end; cbv beta iota; (eexists; split; [reflexivity|]);
        [exists true | exists false]; split; reflexivity.
    + cbv beta iota delta [negb].
      eexists. split; [reflexivity|]. split; reflexivity.
  - intros pre post H. apply run_at in H.
    destruct H as (q & q' & r & _ & Hs & Hf & Ha).
    apply step_incWaiting in Hs. subst q'. cbn [follow step] in Hf.
    next_event Hf; [not_an_end Ha|].
    next_event Hf; [not_an_end Ha|].
    exists post. split; [reflexivity|].
    next_event Hf; [left; reflexivity | right; eauto | right; eauto].
Qed.

Lemma handleJob_no_job_pop (job : JobPtr) (s : ThreadState) :
  existsb is_job_pop (events (trace (handleJob E job s))) = false.
Proof.
  assert (Hw : existsb is_job_pop (events (trace (handleJob_work E job s)))
               = false).
  { exec; reflexivity. }
  destruct (handleJob_events E job s)
    as (s1 & [(_ & -> & _) | (t & _ & -> & _)]).
  - cbn [existsb is_job_pop orb]. rewrite existsb_app, Hw.
    destruct (handleJob_finish_cases E job s1)
      as [(-> & _) | [(? & _ & -> & _) | [(? & _ & -> & _)
         | (? & _ & -> & _)]]];
      reflexivity.
  - cbn [existsb is_job_pop orb]. exact Hw.
Qed.

Lemma bind_normal {A B} (m : M A) (f : A -> M B) (s : ThreadState) b :
  completion (bind m f s) = Normal b ->
  exists a,
    completion (m s) = Normal a /\
    completion (f a (final (m s))) = Normal b /\
    trace (bind m f s) = trace (m s) ++ trace (f a (final (m s))).
Proof.
  unfold bind. destruct (m s) as [[a|t|] s1 tr1]; cbn [completion];
    try discriminate.
  destruct (f a s1) as [c s2 tr2] eqn:Hf; cbn [completion final trace].
  intros ->. exists a. rewrite Hf. auto.
Qed.

(** What the inner loop leaves in [worked]. *)
Lemma drain_worked (fuel : nat) (now worked worked' : float)
      (s : ThreadState) :
  completion (drain E fuel now worked s) = Normal worked' ->
  worked' =
  if existsb is_job_pop (events (trace (drain E fuel now worked s)))
  then now else worked.
Proof.
  revert worked s. induction fuel as [|fuel IH]; intros worked s H.
  - discriminate H.
  - cbn [drain] in *.
    apply bind_normal in H. destruct H as (r & Hpop & H & ->).
    unfold pop in *.
    destruct (shared_cases
                (fun w : World =>
                   match _readyJobs (queue w) with
                   | [] => (w, None)
                   | j :: rest =>
                       (set_queue (set_readyJobs rest (queue w)) w, Some j)
                   end) EvPop s) as (a & s1 & w & Hsh).
    rewrite Hsh in *. cbn [completion final trace] in *.
    injection Hpop as ->.
    rewrite events_app. cbn [events map fst app existsb is_job_pop].
    destruct r as [j|].
    + destruct (j =? nullptr).
      * cbn [negb orb]. apply IH. exact H.
      * cbn [negb orb].
        apply bind_normal in H. destruct H as ([] & _ & H & _).
        apply bind_normal in H. destruct H as ([] & _ & H & _).
        apply IH in H. destruct (existsb _ _) in H; exact H.
    + cbn in H. injection H as <-. reflexivity.
Qed.

(** C6 (amended).  When the inner loop ends, [worked] holds [now], the
    time sampled once at the top of the current iteration of the outer
    loop, if a job was popped in this iteration, and is unchanged
    otherwise (a [pop] that yields a null pointer does not count).  It is
    this value, together with the same [now], that the idle decision gets,
    and the decision is read off two comparisons: the thread parks when
    [worked + grace < now], sleeps a few microseconds when that fails and
    [worked < now], and does neither otherwise.  (The value is not the time
    of the pop itself, as a concrete run further down shows.) *)
Theorem drain_records_iteration_time (fuel : nat) (now worked : float)
        (s : ThreadState) :
  (forall worked',
      completion (drain E fuel now worked s) = Normal worked' ->
      worked' =
      if existsb is_job_pop (events (trace (drain E fuel now worked s)))
      then now else worked) /\
  run_loop E this (S fuel) worked s =
  (stopping <- load_stopping ;;
   if stopping then ret tt
   else
     now <- TRI_microtime ;;
     worked' <- drain E fuel now worked ;;
     c <- idle E this now worked' ;;
     match c with
     | Break => ret tt
     | Continue => run_loop E this fuel worked'
     end) s /\
  (forall worked',
      match events (trace (idle E this now worked' s)) with
      | EvIncWaiting :: _ => (worked' + grace <? now)%float = true
      | EvUsleep _ :: _ =>
          (worked' + grace <? now)%float = false /\
          (worked' <? now)%float = true
      | _ =>
          (worked' + grace <? now)%float = false /\
          (worked' <? now)%float = false
      end).
Proof.
  split; [|split].
  - intros worked'. apply drain_worked.
  - reflexivity.
  - intros worked'. unfold idle.
    destruct (worked' + grace <? now)%float;
      [|destruct (worked' <? now)%float].
    all: reduce_idle; repeat (exec_step; reduce_idle).
    all: auto.
Qed.

End SchedulingLoop.

(* ===================================================================== *)
(** * The scheduling loop on concrete runs                                *)
(* ===================================================================== *)



(** C4 as stated fails at the boundary.  The thread last worked at time
    0.2 and it is now 0.4: the idle time is exactly [grace], and the thread
    sleeps for some microseconds instead of parking.  First the idle
    decision alone; then the same at a time of day of the year 2016, where
    the idle time is 0.2000000477 s and the sum [worked + grace] is
    rounded to [now]; then a whole run
    in which the clock moves from 0.2 to 0.4 after job 6 is done. *)
Lemma idle_at_grace_does_not_park :
  (0.4 - 0.2 =? grace)%float = true /\
  (grace <=? 0.4 - 0.2)%float = true /\
  events (trace (idle (sample_env true false) 4096 0.4 0.2
                      (sample_state false [] 0.4 []))) = [EvUsleep 19] /\
  (grace <=? 1456000000.2 - 1456000000)%float = true /\
  events (trace (idle (sample_env true false) 4096 1456000000.2 1456000000
                      (sample_state false [] 1456000000.2 []))) =
  [EvUsleep 19] /\
  events (trace (run (sample_env true false) 4096 5
                     (sample_state false [6] 0.2
                                   (calm 7 ++ [tick 0.2] ++ calm 3
                                         ++ [begin_shutdown])))) =
  [EvLoadStopping false; EvMicrotime 0.2; EvPop (Some 6); EvDecNumberJobs;
   EvLog DEBUG "starting to run job: plain"; EvSetQueueEnd 6 Returns;
   EvWork 6 Returns; EvCleanup 6 Returns; EvPop None;
   EvLoadStopping false; EvMicrotime 0.4; EvPop None; EvUsleep 19;
   EvLoadStopping true; EvLog TRACE "dispatcher thread has finished";
   EvRemoveStartedThread 4096].
Proof. repeat split; vm_compute; reflexivity. Qed.

(** C4 (amended) at work: a producer adds job 6 after the thread has
    announced that it parks; the second look finds it. *)
Lemma park_rechecks_queue_witness :
  exists w1 w2 w3 rest,
    trace (idle (sample_env true false) 4096 100 0
                (sample_state false [] 100 [id; add_job 6])) =
    (EvIncWaiting, w1) :: (EvLock, w2)
      :: (EvEmpty match _readyJobs (queue w3) with
                  | [] => true
                  | _ :: _ => false
                  end, w3)
      :: rest /\
    match _readyJobs (queue w3) with
    | _ :: _ =>
        events rest = [EvDecWaiting; EvUnlock] /\
        completion (idle (sample_env true false) 4096 100 0
                         (sample_state false [] 100 [id; add_job 6])) =
        Normal Continue
    | [] =>
        exists many,
          events rest = [EvWait (wait_delay (uintptr_t 4096)); EvDecWaiting;
                         EvTooManyThreads many; EvUnlock] /\
          completion (idle (sample_env true false) 4096 100 0
                           (sample_state false [] 100 [id; add_job 6])) =
          Normal (if many then Break else Continue)
    end.
Proof.
  apply (proj1 (park_rechecks_queue
                  (sample_env true false) 4096 0 100 0
                  (sample_state false [] 100 [id; add_job 6]))).
  reflexivity.
Defined.

(** C6 as stated fails.  The iteration starts at time 100; job 1 takes
    five seconds, so job 6 is popped at time 105; but [worked] is 100 when
    the inner loop ends.  In the run (each event with the time at which it
    took place) the next iteration starts at time 105, no time after the
    last pop, and the thread parks at once: the idle decision has compared
    105 with 100, not with the time of the last pop. *)
Lemma worked_is_not_the_pop_time :
  completion (drain (sample_env true false) 5 100 0
                    (sample_state false [1; 6] 100 [])) = Normal 100%float /\
  with_clock
    (trace (run (sample_env true false) 4096 5
                (sample_state false [1; 6] 100
                              (calm 23 ++ [begin_shutdown])))) =
  [(EvLoadStopping false, 100%float); (EvMicrotime 100, 100%float);
   (EvPop (Some 1), 100%float); (EvDecNumberJobs, 100%float);
   (EvLog DEBUG "starting to run job: slow", 100%float);
   (EvSetQueueEnd 1 Returns, 100%float); (EvWork 1 Returns, 100%float);
   (EvCleanup 1 Returns, 105%float);
   (EvPop (Some 6), 105%float); (EvDecNumberJobs, 105%float);
   (EvLog DEBUG "starting to run job: plain", 105%float);
   (EvSetQueueEnd 6 Returns, 105%float); (EvWork 6 Returns, 105%float);
   (EvCleanup 6 Returns, 105%float); (EvPop None, 105%float);
   (EvLoadStopping false, 105%float); (EvMicrotime 105, 105%float);
   (EvPop None, 105%float);
   (EvIncWaiting, 105%float); (EvLock, 105%float);
   (EvEmpty true, 105%float); (EvWait 900000, 105%float);
   (EvDecWaiting, 105%float); (EvTooManyThreads false, 105%float);
   (EvUnlock, 105%float);
   (EvLoadStopping true, 105%float);
   (EvLog TRACE "dispatcher thread has finished", 105%float);
   (EvRemoveStartedThread 4096, 105%float)].
Proof. split; vm_compute; reflexivity. Qed.

(** C6 (amended) at work, on the same inner loop. *)
Lemma drain_records_iteration_time_witness :
  100%float =
  if existsb is_job_pop
             (events (trace (drain (sample_env true false) 5 100 0
                                   (sample_state false [1; 6] 100 []))))
  then 100%float else 0%float.
Proof.
  apply (proj1 (drain_records_iteration_time
                  (sample_env true false) 4096 5 100 0
                  (sample_state false [1; 6] 100 []))).
  reflexivity.
Defined.

(** C7, C8 and C9 at work: the thread at address 4096 finds the queue
    empty, parks for 900 ms, and is told that there are too many
    threads.  While it waits [_nrWaiting] is 1; when the run ends it is 0
    again. *)
Lemma park_timeout_from_identity_witness :
  900000 = wait_delay (uintptr_t 4096).
Proof.
  apply (proj1 (park_timeout_from_identity
                  (sample_env true true) 4096 5
                  (sample_state false [] 100 []))).
  vm_compute. tauto.
Defined.


Lemma nrWaiting_balanced_witness :
  (exists b rest,
      [EvLock; EvEmpty true; EvWait 900000; EvDecWaiting;
       EvTooManyThreads true; EvUnlock;
       EvLog TRACE "dispatcher thread has finished";
       EvRemoveStartedThread 4096] =
      EvLock :: EvEmpty b
        :: (if b then [EvWait (wait_delay (uintptr_t 4096))] else [])
        ++ EvDecWaiting :: rest /\
      waiting_balance
        ([EvLoadStopping false; EvMicrotime 100; EvPop None]
           ++ [EvIncWaiting; EvLock; EvEmpty b]
           ++ (if b then [EvWait (wait_delay (uintptr_t 4096))] else [])
           ++ [EvDecWaiting]) = 0) /\
  (exists w,
      nth_error (trace (run (sample_env true true) 4096 5
                            (sample_state false [] 100 []))) 6 =
      Some (EvWait 900000, w) /\
      _nrWaiting (queue w) = 1) /\
  _nrWaiting
    (queue (world (final (run (sample_env true true) 4096 5
                              (sample_state false [] 100 []))))) = 0.
Proof.
  split; [|split].
  - apply (proj1 (proj2 (proj2 (nrWaiting_balanced
                                  (sample_env true true) 4096 5
                                  (sample_state false [] 100 []))))).
    reflexivity.
  - eexists. split; [reflexivity|].
    exact (proj1 (proj2 (proj2 (proj2 (nrWaiting_balanced
                                         (sample_env true true) 4096 5
                                         (sample_state false [] 100 []))))
                        (Forall_nil _) sample_jobs_spare_nrWaiting)
                 (firstn 6 (trace (run (sample_env true true) 4096 5
                                       (sample_state false [] 100 []))))
                 _
                 (skipn 7 (trace (run (sample_env true true) 4096 5
                                      (sample_state false [] 100 []))))
                 eq_refl).
  - apply (proj2 (proj2 (proj2 (proj2 (nrWaiting_balanced
                                         (sample_env true true) 4096 5
                                         (sample_state false [] 100 []))))
                        (Forall_nil _) sample_jobs_spare_nrWaiting)).
    intros w. reflexivity.
Defined.

(* ===================================================================== *)
(** * [ShellImplFactory::buildShell]                                      *)
(* ===================================================================== *)

(** C10.  Whatever the history and the completer, [buildShell] builds a
    [LinenoiseShell] when [_WIN32] or [TRI_HAVE_LINENOISE] is defined and
    a [ReadlineShell] otherwise, from the very history and completer it was
    given. *)
Theorem buildShell_selects_backend
        (m : ShellImplFactory.Macros) (history : string)
        (completer : ShellImplFactory.CompleterPtr) :
  ShellImplFactory.buildShell m history completer =
  (if ShellImplFactory._WIN32 m || ShellImplFactory.TRI_HAVE_LINENOISE m
   then ShellImplFactory.LinenoiseShell history completer
   else ShellImplFactory.ReadlineShell history completer) /\
  ShellImplFactory.is_linenoise
    (ShellImplFactory.buildShell m history completer) =
  (ShellImplFactory._WIN32 m || ShellImplFactory.TRI_HAVE_LINENOISE m) /\
  ShellImplFactory.shell_history
    (ShellImplFactory.buildShell m history completer) = history /\
  ShellImplFactory.shell_completer
    (ShellImplFactory.buildShell m history completer) = completer.
Proof.
  unfold ShellImplFactory.buildShell.
  destruct (ShellImplFactory._WIN32 m),
           (ShellImplFactory.TRI_HAVE_LINENOISE m);
    repeat split.
Qed.

(* ===================================================================== *)
(** * The constructor: the name of the thread                             *)
(* ===================================================================== *)

Lemma to_string_inj (a b : N) : to_string a = to_string b -> a = b.
Proof.
  unfold to_string. intros H.
  apply (f_equal DecimalString.NilEmpty.uint_of_string) in H.
  rewrite !DecimalString.NilEmpty.usu in H. injection H as H.
  apply (f_equal N.of_uint) in H.
  rewrite !DecimalN.Unsigned.of_to in H. exact H.
Qed.

(** X1.  The name of a dispatcher thread tells the queue it serves: two
    queue ids that give the same name are the same id, whatever the values
    of [STANDARD_QUEUE] and [AQL_QUEUE]. *)
Theorem thread_name_identifies_queue (STANDARD_QUEUE AQL_QUEUE id1 id2 : N) :
  thread_name STANDARD_QUEUE AQL_QUEUE id1 =
  thread_name STANDARD_QUEUE AQL_QUEUE id2 ->
  id1 = id2.
Proof.
  unfold thread_name. intros H.
  cbn [String.append] in H.
  repeat match type of H with
         | String _ _ = String _ _ => injection H as H
         end.
  destruct (id1 =? STANDARD_QUEUE)%N eqn:S1;
    destruct (id2 =? STANDARD_QUEUE)%N eqn:S2.
  - apply N.eqb_eq in S1, S2. congruence.
  - destruct (id2 =? AQL_QUEUE)%N; discriminate H.
  - destruct (id1 =? AQL_QUEUE)%N; discriminate H.
  - destruct (id1 =? AQL_QUEUE)%N eqn:A1;
      destruct (id2 =? AQL_QUEUE)%N eqn:A2; try discriminate H.
    + apply N.eqb_eq in A1, A2. congruence.
    + cbn [String.append] in H. injection H as H.
      apply to_string_inj. exact H.
Qed.

(** X1 at work: queue 7 is called "Dispatcher_7". *)
Lemma thread_name_identifies_queue_witness : 7%N = 7%N.
Proof.
  apply (thread_name_identifies_queue 0 1 7 7).
  reflexivity.
Defined.

(* ===================================================================== *)
(** * The delays of the backoff                                           *)
(* ===================================================================== *)

Lemma wait_delay_value (n : Z) :
  wait_delay n = (1 + Z.shiftr n 3 mod 9) * 100000.
Proof.
  unfold wait_delay, uintptr_t.
  assert (Hb : 0 <= Z.shiftr n 3 mod 9 < 9) by (apply Z.mod_pos_bound; lia).
  assert (H64 : 2 ^ 64 = 18446744073709551616) by reflexivity.
  rewrite H64.
  rewrite (Z.mod_small (1 + _)) by lia.
  rewrite (Z.mod_small (_ * 100)) by lia.
  rewrite Z.mod_small by lia. lia.
Qed.

(** X2.  How far the staggering of the park timeouts goes.  The timeout
    does not see the three low bits of the address, and it is periodic in
    the address with period 72: thread objects that lie a multiple of 72
    bytes apart wait equally long.  Each of the nine delays from 100 ms to
    900 ms is taken, by the addresses 0, 8, ..., 64. *)
Theorem wait_delay_buckets :
  (forall n m, Z.shiftr n 3 = Z.shiftr m 3 -> wait_delay n = wait_delay m) /\
  (forall n k, wait_delay (n + 72 * k) = wait_delay n) /\
  (forall k, 1 <= k <= 9 -> wait_delay (8 * (k - 1)) = k * 100000).
Proof.
  split; [|split].
  - intros n m H. rewrite !wait_delay_value, H. reflexivity.
  - intros n k. rewrite !wait_delay_value.
    rewrite !Z.shiftr_div_pow2 by lia.
    change (2 ^ 3) with 8.
    replace (n + 72 * k) with (n + (9 * k) * 8) by lia.
    rewrite Z.div_add by lia.
    replace (n / 8 + 9 * k) with (n / 8 + k * 9) by lia.
    rewrite Z.mod_add by lia. reflexivity.
  - intros k Hk. rewrite wait_delay_value.
    rewrite Z.shiftr_div_pow2 by lia.
    change (2 ^ 3) with 8.
    replace (8 * (k - 1)) with ((k - 1) * 8) by lia.
    rewrite Z.div_mul by lia.
    rewrite Z.mod_small by lia. lia.
Qed.

(** X2 at work: the objects at 4096 and 4096 + 720 wait equally long. *)
Lemma wait_delay_buckets_witness : wait_delay (4096 + 72 * 10) = wait_delay 4096.
Proof. apply (proj1 (proj2 wait_delay_buckets)). Defined.

(* ===================================================================== *)
(** * More on the scheduling loop                                         *)
(* ===================================================================== *)

Section LoopDiscipline.

Variable E : Env.
Variable this : Z.

Lemma step_holds (q q' : Phase) (e : Event) :
  step this q e = Some q' ->
  holds q + lock_balance [e] = holds q' /\
  (holds q = 1 <-> under_lock e = true).
Proof.
  intros H. invert_step H; subst q'; cbn; repeat split; intros;
    try reflexivity; try discriminate; try lia.
Qed.

Lemma lock_balance_app (l1 l2 : list Event) :
  lock_balance (l1 ++ l2) = lock_balance l1 + lock_balance l2.
Proof.
  induction l1 as [|e l1 IH]; cbn [app lock_balance].
  - reflexivity.
  - destruct e; rewrite ?IH; lia.
Qed.

Lemma follow_holds (p q : Phase) (l : list Event) :
  follow this p l = Some q -> holds p + lock_balance l = holds q.
Proof.
  revert p. induction l as [|e l IH]; intros p H; cbn [follow] in H.
  - injection H as <-. cbn. lia.
  - destruct (step this p e) as [p'|] eqn:Hs; [|discriminate].
    apply IH in H. apply step_holds in Hs. destruct Hs as [Hs _].
    change (e :: l) with ([e] ++ l). rewrite lock_balance_app. lia.
Qed.

Lemma holds_range (q : Phase) : holds q = 0 \/ holds q = 1.
Proof. destruct q; cbn; auto. Qed.

(** X3.  The guard on [_waitLock].  Over any run the locks and unlocks of
    the thread cancel out; the lock is never taken twice; and the thread
    holds it exactly when it looks at the queue for the second time,
    waits, decrements [_nrWaiting], asks [tooManyThreads()] or unlocks: no
    job method runs, nothing is popped, the thread does not sleep and does
    not leave [run] with the lock held. *)
Theorem waitLock_discipline (fuel : nat) (s : ThreadState) :
  lock_balance (events (trace (run E this fuel s))) = 0 /\
  (forall pre e post,
      events (trace (run E this fuel s)) = pre ++ e :: post ->
      (lock_balance pre = 0 \/ lock_balance pre = 1) /\
      (lock_balance pre = 1 <-> under_lock e = true)).
Proof.
  split.
  - destruct (run_leads E this fuel s) as (r & Hf & Ha).
    apply follow_holds in Hf.
    apply after_run_cases in Ha.
    destruct Ha as [(-> & _) | [(-> & _) | ([-> | [-> | ->]] & _)]];
      cbn [holds] in Hf; lia.
  - intros pre e post H. apply run_at in H.
    destruct H as (q & q' & r & Hpre & Hs & _).
    apply follow_holds in Hpre. cbn [holds] in Hpre.
    apply step_holds in Hs. destruct Hs as (_ & Hs).
    rewrite Z.add_0_l in Hpre. rewrite Hpre.
    split; [apply holds_range | exact Hs].
Qed.

Lemma step_to_Idle (q : Phase) (e : Event) :
  step this q e = Some Idle -> e = EvPop None.
Proof. intros H. invert_step H; auto; discriminate. Qed.

Lemma step_from_Idle (q q' : Phase) (e : Event) :
  step this q e = Some q' ->
  match e with
  | EvIncWaiting => q = Idle
  | EvUsleep u => q = Idle /\ u = sleep_delay (uintptr_t this)
  | _ => True
  end.
Proof.
  intros H. invert_step H; auto.
  split; [reflexivity|]. apply Z.eqb_eq. assumption.
Qed.

(** X4.  The two ways of idling.  The thread starts to park
    ([++_nrWaiting]) or sleeps only right after a [pop] has failed.  Every
    sleep lasts [1 + ((n >> 3) % 19)] microseconds for the address [n] of
    the thread object, that is between 1 and 19 microseconds. *)
Theorem idles_only_after_failed_pop (fuel : nat) (s : ThreadState) :
  (forall pre post,
      events (trace (run E this fuel s)) = pre ++ EvIncWaiting :: post ->
      exists front, pre = front ++ [EvPop None]) /\
  (forall pre u post,
      events (trace (run E this fuel s)) = pre ++ EvUsleep u :: post ->
      u = sleep_delay (uintptr_t this) /\
      exists front, pre = front ++ [EvPop None]) /\
  (forall n, sleep_delay n = 1 + Z.shiftr n 3 mod 19 /\
             1 <= sleep_delay n <= 19).
Proof.
  assert (Hidle : forall pre,
             follow this AtLoopTop pre = Some Idle ->
             exists front, pre = front ++ [EvPop None]).
  { intros pre Hpre. apply follow_last in Hpre.
    destruct Hpre as [(_ & H) | (l & e & q & -> & _ & Hs)]; [discriminate H|].
    apply step_to_Idle in Hs. subst e. eauto. }
  split; [|split].
  - intros pre post H. apply run_at in H.
    destruct H as (q & q' & r & Hpre & Hs & _).
    apply step_from_Idle in Hs. subst q. auto.
  - intros pre u post H. apply run_at in H.
    destruct H as (q & q' & r & Hpre & Hs & _).
    apply step_from_Idle in Hs. destruct Hs as (-> & ->). auto.
  - intros n. unfold sleep_delay, uintptr_t.
    assert (Hb : 0 <= Z.shiftr n 3 mod 19 < 19)
      by (apply Z.mod_pos_bound; lia).
    assert (H64 : 2 ^ 64 = 18446744073709551616) by reflexivity.
    rewrite H64, Z.mod_small by lia. lia.
Qed.

End LoopDiscipline.

(* ===================================================================== *)
(** * More on [handleJob]                                                 *)
(* ===================================================================== *)

Section HandleJobMore.

Variable E : Env.

Lemma warnings_app (l1 l2 : list Event) :
  warnings (l1 ++ l2) = (warnings l1 + warnings l2)%nat.
Proof. unfold warnings. rewrite filter_app, length_app. reflexivity. Qed.

Lemma handleError_calls_app (l1 l2 : list Event) :
  handleError_calls (l1 ++ l2) =
  (handleError_calls l1 + handleError_calls l2)%nat.
Proof.
  unfold handleError_calls. rewrite filter_app, length_app. reflexivity.
Qed.

(** The first [try] statement is silent in two cases only. *)
Lemma handleJob_work_warnings (job : JobPtr) (s : ThreadState) :
  (warnings (events (trace (handleJob_work E job s))) <= 1)%nat /\
  (warnings (events (trace (handleJob_work E job s))) = 0%nat ->
   events (trace (handleJob_work E job s)) =
   [EvSetQueueEnd job Returns; EvWork job Returns] \/
   (exists ex,
       events (trace (handleJob_work E job s)) =
       [EvSetQueueEnd job Returns;
        EvWork job (Throws (ArangoException ex));
        EvHandleError job ex Returns]) \/
   (exists ex,
       events (trace (handleJob_work E job s)) =
       [EvSetQueueEnd job (Throws (ArangoException ex));
        EvHandleError job ex Returns])).
Proof.
  exec.
  all: split; [cbn; lia|]; cbn; intros H; try discriminate H; eauto.
Qed.

Lemma handleJob_finish_warnings (job : JobPtr) (s : ThreadState) :
  (warnings (events (trace (handleJob_finish E job s))) <= 1)%nat /\
  (warnings (events (trace (handleJob_finish E job s))) = 0%nat ->
   events (trace (handleJob_finish E job s)) = [EvCleanup job Returns]).
Proof.
  destruct (handleJob_finish_cases E job s)
    as [(-> & _)
       | [(? & _ & -> & _) | [(? & _ & -> & _) | (? & _ & -> & _)]]];
    cbn; split; try lia; intros H; try discriminate H; reflexivity.
Qed.

(** X5.  What [handleJob] writes to the log as warnings: at most two
    lines, and none at all in exactly three kinds of runs: every call
    returned; or the [try] body (the statistics call or [work()]) threw a
    domain error, [handleError] took it without failing, and [cleanup]
    returned.  A domain error that is handled leaves no line in the log;
    every other failure leaves one. *)
Theorem handleJob_silent_runs (job : JobPtr) (s : ThreadState) :
  (warnings (events (trace (handleJob E job s))) <= 2)%nat /\
  (warnings (events (trace (handleJob E job s))) = 0%nat <->
   events (trace (handleJob E job s)) =
   [EvLog DEBUG ("starting to run job: " ++ getName (jobs E job));
    EvSetQueueEnd job Returns; EvWork job Returns;
    EvCleanup job Returns] \/
   (exists ex,
       events (trace (handleJob E job s)) =
       [EvLog DEBUG ("starting to run job: " ++ getName (jobs E job));
        EvSetQueueEnd job Returns;
        EvWork job (Throws (ArangoException ex));
        EvHandleError job ex Returns;
        EvCleanup job Returns]) \/
   (exists ex,
       events (trace (handleJob E job s)) =
       [EvLog DEBUG ("starting to run job: " ++ getName (jobs E job));
        EvSetQueueEnd job (Throws (ArangoException ex));
        EvHandleError job ex Returns;
        EvCleanup job Returns])).
Proof.
  destruct (handleJob_work_warnings job s) as (Hw1 & Hw0).
  assert (Hcount :
            exists f,
              (f <= 1)%nat /\
              warnings (events (trace (handleJob E job s))) =
              (warnings (events (trace (handleJob_work E job s))) + f)%nat /\
              (warnings (events (trace (handleJob E job s))) = 0%nat ->
               events (trace (handleJob E job s)) =
               EvLog DEBUG ("starting to run job: " ++ getName (jobs E job))
               :: events (trace (handleJob_work E job s))
                  ++ [EvCleanup job Returns])).
  { destruct (handleJob_events E job s)
      as (s1 & [(Hc & Hev & _) | (t & Hc & Hev & _)]); rewrite Hev.
    - destruct (handleJob_finish_warnings job s1) as (Hf1 & Hf0).
      exists (warnings (events (trace (handleJob_finish E job s1)))).
      change (warnings (?a :: ?l)) with (warnings ([a] ++ l)).
      rewrite !warnings_app. cbn [warnings filter is_warning List.length].
      split; [exact Hf1|]. split; [lia|].
      intros H. rewrite Hf0 by lia. reflexivity.
    - exists 0%nat.
      change (warnings (?a :: ?l)) with (warnings ([a] ++ l)).
      rewrite !warnings_app. cbn [warnings filter is_warning List.length].
      split; [lia|]. split; [lia|].
      intros H. exfalso.
      destruct (handleJob_work_abrupt E job s t Hc) as (_ & _ & [Hx | Hx]);
        rewrite Hx in H; discriminate H. }
  destruct Hcount as (f & Hf & Hsum & Hzero).
  split; [lia|]. split.
  - intros H. specialize (Hzero H). rewrite Hzero.
    destruct Hw0 as [-> | [(ex & ->) | (ex & ->)]];
      [lia | left | right; left; exists ex | right; right; exists ex];
      reflexivity.
  - intros [-> | [(ex & ->) | (ex & ->)]]; reflexivity.
Qed.

Lemma handleJob_work_handleError_calls (job : JobPtr) (s : ThreadState) :
  handleError_calls (events (trace (handleJob_work E job s))) =
  if work_returned (events (trace (handleJob_work E job s)))
     || cancelled_in_work (events (trace (handleJob_work E job s)))
  then 0%nat else 1%nat.
Proof. exec; reflexivity. Qed.

(** X6.  [handleError] is called at most once by [handleJob]: not at all
    when [work()] has returned or when the first [try] statement re-throws
    on the cancellation path, and exactly once in every other case. *)
Theorem handleError_called_once (job : JobPtr) (s : ThreadState) :
  handleError_calls (events (trace (handleJob E job s))) =
  if work_returned (events (trace (handleJob E job s)))
     || cancelled_in_work (events (trace (handleJob E job s)))
  then 0%nat else 1%nat.
Proof.
  pose proof (handleJob_work_handleError_calls job s) as Hw.
  destruct (handleJob_events E job s)
    as (s1 & [(_ & -> & _) | (t & _ & -> & _)]).
  - change (?a :: ?l ++ ?f) with ([a] ++ l ++ f).
    unfold work_returned, cancelled_in_work in *.
    rewrite !handleError_calls_app, !existsb_app, Hw.
    destruct (handleJob_finish_cases E job s1)
      as [(-> & _)
         | [(? & _ & -> & _) | [(? & _ & -> & _) | (? & _ & -> & _)]]];
      cbn; rewrite !orb_false_r, Nat.add_0_r; reflexivity.
  - change (?a :: ?l) with ([a] ++ l).
    unfold work_returned, cancelled_in_work in *.
    rewrite !handleError_calls_app, !existsb_app, Hw. reflexivity.
Qed.

End HandleJobMore.

(* ===================================================================== *)
(** * Which jobs are run                                                  *)
(* ===================================================================== *)

Lemma pop_cases (s : ThreadState) :
  exists r s' w,
    pop s = {| completion := Normal r; final := s'; trace := [(EvPop r, w)] |}.
Proof. unfold pop. apply shared_cases. Qed.

Section JobsRun.

Variable E : Env.
Variable this : Z.

Lemma started_app (l1 l2 : list Event) :
  started (l1 ++ l2) = started l1 ++ started l2.
Proof. apply flat_map_app. Qed.

Lemma popped_app (l1 l2 : list Event) :
  popped (l1 ++ l2) = popped l1 ++ popped l2.
Proof. apply flat_map_app. Qed.

Lemma handleJob_started (job : JobPtr) (s : ThreadState) :
  started (events (trace (handleJob E job s))) = [job] /\
  popped (events (trace (handleJob E job s))) = [].
Proof.
  assert (Hw : started (events (trace (handleJob_work E job s))) = [job] /\
               popped (events (trace (handleJob_work E job s))) = []).
  { exec; split; reflexivity. }
  destruct Hw as (Hw1 & Hw2).
  destruct (handleJob_events E job s)
    as (s1 & [(_ & -> & _) | (t & _ & -> & _)]).
  - change (?a :: ?l ++ ?f) with ([a] ++ l ++ f).
    rewrite !started_app, !popped_app, Hw1, Hw2.
    destruct (handleJob_finish_cases E job s1)
      as [(-> & _)
         | [(? & _ & -> & _) | [(? & _ & -> & _) | (? & _ & -> & _)]]];
      split; reflexivity.
  - change (?a :: ?l) with ([a] ++ l).
    rewrite !started_app, !popped_app, Hw1, Hw2. split; reflexivity.
Qed.

Lemma idle_started (now worked : float) (s : ThreadState) :
  started (events (trace (idle E this now worked s))) = [] /\
  popped (events (trace (idle E this now worked s))) = [].
Proof.
  unfold idle.
  destruct (worked + grace <? now)%float; [|destruct (worked <? now)%float].
  all: reduce_idle; repeat (exec_step; reduce_idle).
  all: split; reflexivity.
Qed.

Lemma drain_started (fuel : nat) (now worked : float) (s : ThreadState) :
  started (events (trace (drain E fuel now worked s))) =
  popped (events (trace (drain E fuel now worked s))).
Proof.
  revert worked s. induction fuel as [|fuel IH]; intros worked s.
  - reflexivity.
  - cbn [drain]. rewrite bind_run.
    destruct (pop_cases s) as (r & s1 & w & ->).
    cbn [completion final trace].
    rewrite events_app, started_app, popped_app.
    destruct r as [j|]; [|reflexivity].
    cbn [events map fst started popped flat_map app].
    destruct (j =? nullptr); [apply IH|].
    rewrite bind_run.
    destruct (shared_cases
                (fun w0 : World =>
                   (set_queue (set_numberJobs (_numberJobs (queue w0) - 1)
                                              (queue w0)) w0, tt))
                (fun _ : unit => EvDecNumberJobs) s1) as ([] & s2 & w2 & Hd).
    unfold dec_numberJobs. rewrite Hd. cbn [completion final trace].
    rewrite events_app, started_app, popped_app.
    cbn [events map fst started popped flat_map app].
    rewrite bind_run.
    destruct (handleJob_started j s2) as (Hs & Hp).
    destruct (completion (handleJob E j s2)) as [[]|t|];
      cbn [completion final trace];
      rewrite ?events_app, ?started_app, ?popped_app, Hs, Hp;
      cbn [app]; try reflexivity.
    f_equal. apply IH.
Qed.

Lemma run_loop_started (fuel : nat) (worked : float) (s : ThreadState) :
  started (events (trace (run_loop E this fuel worked s))) =
  popped (events (trace (run_loop E this fuel worked s))).
Proof.
  revert worked s. induction fuel as [|fuel IH]; intros worked s.
  - reflexivity.
  - cbn [run_loop]. rewrite bind_run. unfold load_stopping, TRI_microtime.
    destruct (shared_cases (fun w : World => (w, _stopping (queue w)))
                           EvLoadStopping s) as (b & s1 & w1 & ->).
    cbn [completion final trace].
    rewrite events_app, started_app, popped_app.
    cbn [events map fst started popped flat_map app].
    destruct b; [reflexivity|].
    rewrite bind_run.
    destruct (shared_cases (fun w : World => (w, clock w))
                           EvMicrotime s1) as (now & s2 & w2 & ->).
    cbn [completion final trace].
    rewrite events_app, started_app, popped_app.
    cbn [events map fst started popped flat_map app].
    rewrite bind_run.
    pose proof (drain_started fuel now worked s2) as Hd.
    destruct (completion (drain E fuel now worked s2)) as [worked'|t|];
      cbn [completion final trace]; try exact Hd.
    rewrite events_app, started_app, popped_app, Hd. f_equal.
    rewrite bind_run.
    destruct (idle_started now worked'
                           (final (drain E fuel now worked s2))) as (Hi1 & Hi2).
    destruct (completion (idle E this now worked'
                               (final (drain E fuel now worked s2))))
      as [[|]|t|]; cbn [completion final trace];
      rewrite ?events_app, ?started_app, ?popped_app, ?Hi1, ?Hi2;
      cbn [app]; try reflexivity.
    apply IH.
Qed.

Lemma popped_nonnull (evs : list Event) : ~ In nullptr (popped evs).
Proof.
  induction evs as [|e evs IH]; cbn [popped flat_map]; [intros []|].
  intros H. apply in_app_or in H. destruct H as [H|H]; [|exact (IH H)].
  destruct e as [| | |[j|]| | | | | | | | | | | | | |]; try destruct H.
  destruct (j =? nullptr) eqn:Hj; [destruct H|].
  destruct H as [H|[]]. subst j. discriminate Hj.
Qed.

(** X7.  Over any run the jobs on which [handleJob] starts are, in order
    and one for one, the pointers that were popped and were not null:
    every popped job is started once, before the next pop, nothing is
    started that was not popped, and no method is ever called through a
    null pointer. *)
Theorem jobs_started_as_popped (fuel : nat) (s : ThreadState) :
  started (events (trace (run E this fuel s))) =
  popped (events (trace (run E this fuel s))) /\
  ~ In nullptr (started (events (trace (run E this fuel s)))).
Proof.
  assert (H : started (events (trace (run E this fuel s))) =
              popped (events (trace (run E this fuel s)))).
  { unfold run. rewrite bind_run. cbn [set_currentDispatcherThread
      completion final trace app].
    rewrite bind_run.
    pose proof (run_loop_started fuel 0%float
                  {| world := world s; others := others s;
                     currentDispatcherThread := this |}) as Hl.
    destruct (completion (run_loop E this fuel 0 _)) as [[]|t|];
      cbn [completion final trace]; try exact Hl.
    rewrite events_app, started_app, popped_app, Hl. f_equal. }
  split; [exact H|]. rewrite H. apply popped_nonnull.
Qed.

End JobsRun.

(* ===================================================================== *)
(** * Invariants of the state along a run                                 *)
(* ===================================================================== *)

Lemma set_world_same (s : ThreadState) : set_world (world s) s = s.
Proof. destruct s; reflexivity. Qed.

Section Keeps.

Variable I : ThreadState -> Prop.

Lemma keeps_ret {A} (a : A) : keeps I (ret a).
Proof. intros s H. exact H. Qed.

Lemma keeps_throw {A} (t : Throwable) : keeps I (@throw A t).
Proof. intros s H. exact H. Qed.

Lemma keeps_LOG (lvl : LogLevel) (msg : string) : keeps I (LOG lvl msg).
Proof. intros s H. exact H. Qed.

Lemma keeps_bind {A B} (m : M A) (f : A -> M B) :
  keeps I m -> (forall a, keeps I (f a)) -> keeps I (bind m f).
Proof.
  intros Hm Hf s H. rewrite bind_run. specialize (Hm s H).
  destruct (completion (m s)); cbn [final]; auto. apply Hf. exact Hm.
Qed.

Lemma keeps_try_catch {A} (body : M A) (handler : Throwable -> M A) :
  keeps I body -> (forall t, keeps I (handler t)) ->
  keeps I (try_catch body handler).
Proof.
  intros Hb Hh s H. unfold try_catch. specialize (Hb s H).
  destruct (body s) as [[a|t|] s1 tr1]; cbn [final] in *; auto.
  specialize (Hh t s1 Hb). destruct (handler t s1); exact Hh.
Qed.

Hypothesis interleave_keeps : forall s, I s -> I (interleave s).

Lemma keeps_call (act : Action) (ev : Outcome -> Event) :
  action_keeps I act -> keeps I (call act ev).
Proof. intros Ha s H. apply Ha. apply interleave_keeps. exact H. Qed.

(** A read of the shared state. *)
Lemma keeps_read {A} (get : World -> A) (ev : A -> Event) :
  keeps I (shared (fun w => (w, get w)) ev).
Proof.
  intros s H. unfold shared. cbn [final fst].
  rewrite set_world_same. apply interleave_keeps. exact H.
Qed.

Variable E : Env.

Lemma handleJob_keeps (job : JobPtr) :
  job_keeps I (jobs E job) -> keeps I (handleJob E job).
Proof.
  intros (Hq & Hw & Hh & Hc).
  unfold handleJob, handleJob_work, handleJob_finish, job_setQueueEnd,
    job_work, job_handleError, job_cleanup, load_stopping.
  cbv zeta.
  repeat first
         [ apply keeps_bind
         | apply keeps_try_catch
         | apply keeps_LOG
         | apply keeps_ret
         | apply keeps_throw
         | apply keeps_read
         | apply keeps_call; solve [auto]
         | match goal with
           | |- keeps _ (if ?c then _ else _) => destruct c
           | |- keeps _ (match ?t with _ => _ end) => destruct t
           | |- forall _, _ => intros ?
           end ].
Qed.

Variable this : Z.

Hypothesis jobs_keep : forall p, job_keeps I (jobs E p).
Hypothesis pop_keeps : keeps I pop.
Hypothesis dec_numberJobs_keeps : keeps I dec_numberJobs.
Hypothesis idle_keeps : forall now worked, keeps I (idle E this now worked).

Lemma drain_keeps (fuel : nat) (now worked : float) :
  keeps I (drain E fuel now worked).
Proof.
  revert worked. induction fuel as [|fuel IH]; intros worked.
  - intros s H. exact H.
  - cbn [drain]. apply keeps_bind; [exact pop_keeps|].
    intros [j|]; [|apply keeps_ret].
    destruct (j =? nullptr); [apply IH|].
    apply keeps_bind; [exact dec_numberJobs_keeps|]. intros _.
    apply keeps_bind; [apply handleJob_keeps; apply jobs_keep|]. intros _.
    apply IH.
Qed.

Lemma run_loop_keeps (fuel : nat) (worked : float) :
  keeps I (run_loop E this fuel worked).
Proof.
  revert worked. induction fuel as [|fuel IH]; intros worked.
  - intros s H. exact H.
  - cbn [run_loop]. apply keeps_bind; [apply keeps_read|].
    intros [|]; [apply keeps_ret|].
    apply keeps_bind; [apply keeps_read|]. intros now.
    apply keeps_bind; [apply drain_keeps|]. intros worked'.
    apply keeps_bind; [apply idle_keeps|].
    intros [|]; [apply IH | apply keeps_ret].
Qed.

End Keeps.

Section StateAlongRun.

Variable E : Env.
Variable this : Z.

Lemma moves_shared_bind {A B} (P Q R : ThreadState -> Prop)
      (op : World -> World * A) (ev : A -> Event) (f : A -> M B) :
  moves P (shared op ev) Q ->
  (forall a, moves Q (f a) R) ->
  moves P (bind (shared op ev) f) R.
Proof.
  intros Hm Hf s H. rewrite bind_run. specialize (Hm s H).
  unfold shared in *. cbn [completion final] in *. apply Hf. exact Hm.
Qed.

(** An operation on the world that adds [d] to [_nrWaiting]. *)
Lemma nrWaiting_shared {A} (k d : Z) (op : World -> World * A)
      (ev : A -> Event) :
  (forall w, _nrWaiting (queue (fst (op w))) = _nrWaiting (queue w) + d) ->
  moves (nrWaiting_is k) (shared op ev) (nrWaiting_is (k + d)).
Proof.
  intros Hop s H. apply nrWaiting_interleave in H. destruct H as (Ho & Hk).
  unfold shared, nrWaiting_is. cbn. split; [exact Ho|].
  rewrite Hop, Hk. reflexivity.
Qed.

Lemma nrWaiting_shared_same {A} (k : Z) (op : World -> World * A)
      (ev : A -> Event) :
  (forall w, _nrWaiting (queue (fst (op w))) = _nrWaiting (queue w)) ->
  keeps (nrWaiting_is k) (shared op ev).
Proof.
  intros Hop s H. replace k with (k + 0) by lia.
  apply (nrWaiting_shared k 0 op ev); [|exact H].
  intros w. rewrite Hop. lia.
Qed.

Lemma nrWaiting_job (k : Z) (j : Job) :
  job_spares_nrWaiting j -> job_keeps (nrWaiting_is k) j.
Proof.
  intros (H1 & H2 & H3 & H4).
  unfold job_keeps, action_keeps, nrWaiting_is.
  repeat split; try tauto; cbn; intros;
    match goal with
    | H : _ /\ _ = k |- _ => destruct H as (_ & <-)
    end; first [apply H1 | apply H2 | apply H3 | apply H4].
Qed.

Lemma nrWaiting_idle (k : Z) (now worked : float) :
  keeps (nrWaiting_is k) (idle E this now worked).
Proof.
  unfold idle.
  destruct (worked + grace <? now)%float; [|destruct (worked <? now)%float].
  - unfold inc_nrWaiting, lock_waitLock, readyJobs_empty, dec_nrWaiting,
      unlock_waitLock, wait.
    apply moves_shared_bind with (Q := nrWaiting_is (k + 1));
      [apply nrWaiting_shared; reflexivity|]. intros _.
    apply moves_shared_bind with (Q := nrWaiting_is (k + 1));
      [apply nrWaiting_shared_same; reflexivity|]. intros _.
    apply moves_shared_bind with (Q := nrWaiting_is (k + 1));
      [apply nrWaiting_shared_same; reflexivity|]. intros e.
    assert (Hdec : forall (B : Type) (f : unit -> M B),
               (forall a, keeps (nrWaiting_is k) (f a)) ->
               moves (nrWaiting_is (k + 1))
                     (bind
                        (shared
                           (fun w : World =>
                              (set_queue
                                 (set_nrWaiting (_nrWaiting (queue w) - 1)
                                                (queue w)) w, tt))
                           (fun _ : unit => EvDecWaiting)) f)
                     (nrWaiting_is k)).
    { intros B f Hf.
      apply moves_shared_bind with (Q := nrWaiting_is k); [|exact Hf].
      intros s H. replace k with (k + 1 + -1) by lia.
      apply (nrWaiting_shared (k + 1) (-1)); [|exact H].
      intros w. cbn. lia. }
    destruct e; cbn [negb].
    + apply moves_shared_bind with (Q := nrWaiting_is (k + 1));
        [apply nrWaiting_shared_same; reflexivity|]. intros _.
      apply Hdec. intros _.
      apply keeps_bind; [apply nrWaiting_shared_same; reflexivity|].
      intros [|]; (apply keeps_bind;
                   [apply nrWaiting_shared_same; reflexivity
                   | intros; apply keeps_ret]).
    + apply Hdec. intros _.
      apply keeps_bind; [apply nrWaiting_shared_same; reflexivity
                        | intros; apply keeps_ret].
  - apply keeps_bind; [apply nrWaiting_shared_same; reflexivity
                      | intros; apply keeps_ret].
  - apply keeps_ret.
Qed.

(** X9.  The loop gives back what it takes from [_nrWaiting].  If neither
    the other threads nor the job methods change [_nrWaiting], then
    however the scheduling loop ends (left, unwound, fuel used up) the
    counter has the value it had when the loop was entered. *)
Theorem run_loop_restores_nrWaiting (fuel : nat) (worked : float)
        (s : ThreadState) :
  Forall spares_nrWaiting (others s) ->
  (forall p, job_spares_nrWaiting (jobs E p)) ->
  _nrWaiting (queue (world (final (run_loop E this fuel worked s)))) =
  _nrWaiting (queue (world s)).
Proof.
  intros Ho Hj.
  assert (H : nrWaiting_is (_nrWaiting (queue (world s))) s).
  { split; [exact Ho | reflexivity]. }
  apply (run_loop_keeps (nrWaiting_is (_nrWaiting (queue (world s))))) with
      (E := E) (this := this) (fuel := fuel) (worked := worked) in H.
  - destruct H as (_ & H). exact H.
  - apply nrWaiting_interleave.
  - intros p. apply nrWaiting_job. apply Hj.
  - apply nrWaiting_shared_same. intros w.
    destruct (_readyJobs (queue w)); reflexivity.
  - apply nrWaiting_shared_same. reflexivity.
  - apply nrWaiting_idle.
Qed.

End StateAlongRun.

(** X9 at work: two jobs, the second with a failing [cleanup], then two
    parks, then the shutdown. *)
Lemma run_loop_restores_nrWaiting_witness :
  _nrWaiting
    (queue (world (final (run_loop (sample_env true false) 8 30 0
                                   (sample_state false [1; 4] 100
                                      (calm 30 ++ [begin_shutdown])))))) =
  0.
Proof.
  apply (run_loop_restores_nrWaiting
           (sample_env true false) 8 30 0
           (sample_state false [1; 4] 100
                         (calm 30 ++ [begin_shutdown]))).
  - repeat constructor.
  - intros p. unfold sample_env, jobs, sample_jobs.
    repeat match goal with
           | |- context [if ?c then _ else _] => destruct c
           end; repeat split; intros; reflexivity.
Defined.

(* ===================================================================== *)
(** * Draining a queue that nobody else touches                           *)
(* ===================================================================== *)


Section DrainAlone.

Variable E : Env.

Lemma all_pops_app (l1 l2 : list Event) :
  all_pops (l1 ++ l2) = all_pops l1 ++ all_pops l2.
Proof. apply flat_map_app. Qed.

Lemma cleaned_app (l1 l2 : list Event) :
  cleaned (l1 ++ l2) = cleaned l1 ++ cleaned l2.
Proof. apply flat_map_app. Qed.

Lemma interleave_alone (s : ThreadState) : others s = [] -> interleave s = s.
Proof. unfold interleave. intros ->. reflexivity. Qed.

Lemma alone_interleave (q : DispatcherQueue) (s : ThreadState) :
  alone_with q s -> alone_with q (interleave s).
Proof. intros (Ho & Hq). rewrite interleave_alone; [split|]; assumption. Qed.

Lemma alone_job (q : DispatcherQueue) (j : Job) :
  quiet_job j -> job_keeps (alone_with q) j.
Proof.
  intros (H1 & H2 & H3 & H4).
  unfold job_keeps, action_keeps, alone_with.
  repeat split; try tauto; cbn; intros;
    match goal with
    | H : _ /\ _ = q |- _ => destruct H as (_ & <-)
    end; first [apply H1 | apply H2 | apply H3 | apply H4].
Qed.

(** What [handleJob] shows of a job, by the way it ends. *)
Lemma handleJob_cleaned (job : JobPtr) (s : ThreadState) :
  all_pops (events (trace (handleJob E job s))) = [] /\
  completion (handleJob E job s) <> OutOfFuel /\
  (completion (handleJob E job s) = Normal tt ->
   cleaned (events (trace (handleJob E job s))) = [job]).
Proof.
  assert (Hw : all_pops (events (trace (handleJob_work E job s))) = [] /\
               cleaned (events (trace (handleJob_work E job s))) = []).
  { exec; split; reflexivity. }
  destruct Hw as (Hw1 & Hw2).
  destruct (handleJob_events E job s)
    as (s1 & [(_ & -> & ->) | (t & _ & -> & ->)]).
  - change (?a :: ?l ++ ?f) with ([a] ++ l ++ f).
    rewrite !all_pops_app, !cleaned_app, Hw1, Hw2.
    destruct (handleJob_finish_cases E job s1)
      as [(-> & ->)
         | [(? & _ & -> & ->) | [(? & _ & -> & ->) | (? & _ & -> & ->)]]];
      (split; [reflexivity | split; [discriminate|]]);
      intros H; try discriminate H; reflexivity.
  - change (?a :: ?l) with ([a] ++ l).
    rewrite !all_pops_app, Hw1.
    split; [reflexivity | split; discriminate].
Qed.

Lemma pop_alone (s : ThreadState) :
  others s = [] ->
  pop s =
  match _readyJobs (queue (world s)) with
  | [] => {| completion := Normal None; final := s;
             trace := [(EvPop None, world s)] |}
  | j :: rest =>
      {| completion := Normal (Some j);
         final := set_world (set_queue (set_readyJobs rest (queue (world s)))
                                       (world s)) s;
         trace := [(EvPop (Some j), world s)] |}
  end.
Proof.
  intros Ho. unfold pop, shared. cbv zeta. rewrite (interleave_alone s Ho).
  destruct (_readyJobs (queue (world s))); cbn [fst snd]; [|reflexivity].
  rewrite set_world_same. reflexivity.
Qed.

Lemma dec_numberJobs_alone (s : ThreadState) :
  others s = [] ->
  dec_numberJobs s =
  {| completion := Normal tt;
     final := set_world (set_queue (set_numberJobs
                                      (_numberJobs (queue (world s)) - 1)
                                      (queue (world s))) (world s)) s;
     trace := [(EvDecNumberJobs, world s)] |}.
Proof.
  intros Ho. unfold dec_numberJobs, shared. cbv zeta.
  rewrite (interleave_alone s Ho). reflexivity.
Qed.

(** X10.  Served alone, the queue is served in order.  When no other
    thread runs and the jobs in the queue leave the queue alone, the inner
    loop pops the ready jobs from the front, in order; it starts exactly
    the ones that are not null; it takes one from [_numberJobs] for each
    job it starts; and it never needs more steps than there are entries.
    What it has not popped when an exception unwinds it is still in the
    queue.  When it returns, the queue is empty and every job that was
    started has had its [cleanup] called, once and in the same order. *)
Theorem drain_serves_in_order (fuel : nat) (now worked : float)
        (s : ThreadState) :
  others s = [] ->
  (forall p, In p (_readyJobs (queue (world s))) -> p <> nullptr ->
             quiet_job (jobs E p)) ->
  (List.length (_readyJobs (queue (world s))) < fuel)%nat ->
  let r := drain E fuel now worked s in
  let evs := events (trace r) in
  completion r <> OutOfFuel /\
  _readyJobs (queue (world s)) =
  all_pops evs ++ _readyJobs (queue (world (final r))) /\
  started evs = filter nonnull (all_pops evs) /\
  _numberJobs (queue (world (final r))) =
  _numberJobs (queue (world s)) - Z.of_nat (List.length (started evs)) /\
  (forall w, completion r = Normal w ->
             _readyJobs (queue (world (final r))) = [] /\
             cleaned evs = started evs).
Proof.
  cbv zeta. revert now worked s.
  induction fuel as [|fuel IH]; intros now worked s Ho Hq Hlen; [lia|].
  cbn [drain]. rewrite bind_run, (pop_alone s Ho).
  destruct (_readyJobs (queue (world s))) as [|j rest] eqn:Hready;
    cbn [completion final trace].
  - cbn [ret completion final trace app events map fst all_pops started
         cleaned flat_map filter List.length].
    rewrite Hready. repeat split; try discriminate; lia.
  - set (s1 := set_world (set_queue (set_readyJobs rest (queue (world s)))
                                    (world s)) s).
    assert (Ho1 : others s1 = []) by exact Ho.
    assert (Hr1 : _readyJobs (queue (world s1)) = rest) by reflexivity.
    assert (Hn1 : _numberJobs (queue (world s1)) =
                  _numberJobs (queue (world s))) by reflexivity.
    cbn [List.length] in Hlen.
    destruct (j =? nullptr) eqn:Hj.
    + destruct (IH now worked s1 Ho1) as (F & R & S & N & D).
      { rewrite Hr1. intros p Hp. apply Hq. right. exact Hp. }
      { rewrite Hr1. lia. }
      rewrite events_app, all_pops_app, started_app, cleaned_app.
      cbn [events map fst all_pops started cleaned flat_map app filter].
      unfold nonnull at 1. rewrite Hj. cbn [negb].
      rewrite <- Hn1, <- Hr1, <- R. auto.
    + rewrite bind_run, (dec_numberJobs_alone s1 Ho1).
      cbn [completion final trace].
      set (s2 := set_world _ s1).
      assert (Ho2 : others s2 = []) by exact Ho.
      assert (Hr2 : _readyJobs (queue (world s2)) = rest) by reflexivity.
      assert (Hn2 : _numberJobs (queue (world s2)) =
                    _numberJobs (queue (world s)) - 1) by reflexivity.
      assert (Hjob : quiet_job (jobs E j)).
      { apply Hq; [left; reflexivity|]. intros ->. discriminate Hj. }
      pose proof (handleJob_keeps (alone_with (queue (world s2))) 
                                  (alone_interleave (queue (world s2))) E j
                                  (alone_job (queue (world s2)) _ Hjob)
                                  s2 (conj Ho2 eq_refl)) as (Ho3 & Hq3).
      destruct (handleJob_started E j s2) as (Hst & _).
      destruct (handleJob_cleaned j s2) as (Hpops & Hfuel & Hcl).
      rewrite bind_run.
      rewrite !events_app, !all_pops_app, !started_app, !cleaned_app.
      cbn [events map fst all_pops started cleaned flat_map app filter].
      unfold nonnull at 1. rewrite Hj. cbn [negb].
      destruct (completion (handleJob E j s2)) as [[]|t|] eqn:Hc;
        cbn [completion final trace]; [| |contradiction].
      * set (s3 := final (handleJob E j s2)) in *.
        destruct (IH now now s3 Ho3) as (F & R & S & N & D).
        { rewrite Hq3, Hr2. intros p Hp. apply Hq. right. exact Hp. }
        { rewrite Hq3, Hr2. lia. }
        rewrite !events_app, !all_pops_app, !started_app, !cleaned_app.
        rewrite Hpops, Hst, (Hcl eq_refl). cbn [app filter].
        rewrite Hq3, Hr2 in R.
        split; [exact F|]. split; [rewrite <- R; reflexivity|].
        split; [rewrite S; reflexivity|].
        split.
        -- rewrite N, Hq3, Hn2. cbn [List.length]. lia.
        -- intros w Hw. destruct (D w Hw) as (D1 & D2).
           split; [exact D1 | rewrite D2; reflexivity].
      * rewrite Hpops, Hst. cbn [app filter List.length].
        rewrite Hq3, Hr2, Hn2.
        repeat split; try discriminate; lia.
Qed.

End DrainAlone.

(** X10 at work: a queue of four entries, one of them null, one whose
    [work], [handleError] and [cleanup] all throw. *)
Lemma drain_serves_in_order_witness :
  let r := drain (sample_env true false) 5 100 0
                 (sample_state false [1; 0; 4; 6] 100 []) in
  completion r <> OutOfFuel /\
  [1; 0; 4; 6] =
  all_pops (events (trace r)) ++ _readyJobs (queue (world (final r))) /\
  started (events (trace r)) = filter nonnull (all_pops (events (trace r))) /\
  _numberJobs (queue (world (final r))) =
  4 - Z.of_nat (List.length (started (events (trace r)))) /\
  (forall w, completion r = Normal w ->
             _readyJobs (queue (world (final r))) = [] /\
             cleaned (events (trace r)) = started (events (trace r))).
Proof.
  apply (drain_serves_in_order
           (sample_env true false) 5 100 0
           (sample_state false [1; 0; 4; 6] 100 [])).
  - reflexivity.
  - intros p _ _. unfold sample_env, jobs, sample_jobs.
    repeat match goal with
           | |- context [if ?c then _ else _] => destruct c
           end; repeat split; intros; reflexivity.
  - cbn. lia.
Defined.
